(** * react-native-sprites: frame geometry, animation ranges and playback

    A shallow embedding of [src/Sprites.tsx].

    Numbers.  The source computes with JavaScript numbers.  Quantities the
    component uses as counts and grid indices ([columns], [rows], [row],
    [startFrame], [endFrame], frame indices) are modelled as [Z]; pixel
    quantities, the animated progress value, [fps] and durations as exact
    rationals [Q] (rounding is not modelled).  Array positions and lengths
    are [nat].  A statement that holds of the exact numbers only carries
    the range in which the source's numbers are exact as a hypothesis
    ([safeInteger], whole-number sizes, a frame rate other than 0).

    Effects.  [console.warn] / [console.error] calls are recorded, in order,
    in a list of [Diagnostic]s; invocations of the caller's callbacks are
    recorded, in order, together with the progress value at that moment. *)

From Stdlib Require Import ZArith QArith Lia Lqa.
From stdpp Require Import base option list strings gmap fin_maps.
From Equations Require Import Equations.

Local Open Scope Z_scope.

(** ** Observable effects *)

(** The caller's callbacks ([onFinish], the [cb] of [stop] and [reset]) are
    opaque functions; they are identified by a name. *)
Definition Callback := string.

(** Console output, one constructor per message of the source:
    - [FrameOutOfBounds i n]: warn, Frame index i is out of bounds (0-(n-1)).
      Returning (0,0).   (l.194)
    - [TooFewFramesWarn key n]: warn, Animation key requires at least 2
      frames, but received n.   (l.245)
    - [NotFound type]: error, Animation type not found.   (l.331)
    - [TooFewFramesError type n]: error, Animation type requires at least 2
      frames, but received n.   (l.339) *)
Inductive Diagnostic :=
| FrameOutOfBounds (frameIndex totalFrames : Z)
| TooFewFramesWarn (key : string) (received : nat)
| NotFound (type : string)
| TooFewFramesError (type : string) (received : nat).

Inductive Level := Warn | Error.

Definition level (d : Diagnostic) : Level :=
  match d with
  | FrameOutOfBounds _ _ | TooFewFramesWarn _ _ => Warn
  | NotFound _ | TooFewFramesError _ _ => Error
  end.

(** ** Props of the component *)

Record AnimationDef := { row : Z; startFrame : Z; endFrame : Z }.

(** The values the memoised computations close over.  [computedFrameWidth]
    and [computedFrameHeight] are the results of l.151-161; [DEV] is the
    global [__DEV__]. *)
Record Props := {
  columns : Z;
  rows : Z;
  animations : gmap string AnimationDef;
  computedFrameWidth : Q;
  computedFrameHeight : Q;
  offsetX : Q;
  offsetY : Q;
  DEV : bool
}.

Record Coords := { translateX : Q; translateY : Q }.

(** ** getFrameCoords (l.188-209)

    [%] is JavaScript's remainder (sign of the dividend): [Z.rem];
    [Math.floor (a / b)] is [Z.div]. *)
Definition getFrameCoords (p : Props) (frameIndex : Z) : Coords * list Diagnostic :=
  let totalFrames := columns p * rows p in
  if (frameIndex <? 0) || (frameIndex >=? totalFrames) then
    ({| translateX := 0; translateY := 0 |},
     if DEV p then [FrameOutOfBounds frameIndex totalFrames] else [])
  else
    let column := Z.rem frameIndex (columns p) in
    let row := frameIndex / columns p in
    let translateX := (- inject_Z column * computedFrameWidth p - offsetX p)%Q in
    let translateY := (- inject_Z row * computedFrameHeight p - offsetY p)%Q in
    ({| translateX := translateX; translateY := translateY |}, []).

(** ** generateFrames (l.212-227) *)

(** The [for] loop of l.221-223: [i] runs upwards while [i <= endFrame],
    pushing [baseFrame + i] onto [frames]. *)
Equations? generateFrames_loop (baseFrame endFrame i : Z) (frames : list Z) : list Z
  by wf (Z.to_nat (endFrame + 1 - i)) lt :=
  generateFrames_loop baseFrame endFrame i frames with Z_le_dec i endFrame => {
    | left _ := generateFrames_loop baseFrame endFrame (i + 1) (frames ++ [baseFrame + i]);
    | right _ := frames }.
Proof. lia. Qed.

Definition generateFrames (row startFrame endFrame totalColumns : Z) : list Z :=
  let baseFrame := row * totalColumns in
  generateFrames_loop baseFrame endFrame startFrame [].

(** ** interpolationRanges (l.230-270) *)

Record Range := { input : list Z; output : list Q }.

(** The value stored under [ranges[key]] (l.263-266); the two fields are
    the source's [translateX] and [translateY]. *)
Record AnimationRanges := { translateX_range : Range; translateY_range : Range }.

(** The three arrays filled by [frames.forEach] (l.251-253). *)
Record RangeArrays := {
  inputRange : list Z;
  outputRangeX : list Q;
  outputRangeY : list Q
}.

(** [Array.prototype.forEach]: the callback receives the element and its
    index, in order; [s] is the state the callback mutates. *)
Fixpoint forEach_from {A St : Type} (f : St → A → nat → St) (l : list A) (index : nat) (s : St) : St :=
  match l with
  | [] => s
  | x :: l' => forEach_from f l' (S index) (f s x index)
  end.

Definition forEach {A St : Type} (f : St → A → nat → St) (l : list A) (s : St) : St :=
  forEach_from f l 0%nat s.

(** Body of the callback of l.255-261. *)
Definition push_frame (p : Props) (s : RangeArrays * list Diagnostic)
    (frameIndex : Z) (index : nat) : RangeArrays * list Diagnostic :=
  let '(arrays, console) := s in
  let inputRange' := inputRange arrays ++ [Z.of_nat index; Z.of_nat index + 1] in
  let '(coords, warned) := getFrameCoords p frameIndex in
  ({| inputRange := inputRange';
      outputRangeX := outputRangeX arrays ++ [translateX coords; translateX coords];
      outputRangeY := outputRangeY arrays ++ [translateY coords; translateY coords] |},
   console ++ warned).

(** Body of the callback of l.240-267, on one entry [[key, anim]]. *)
Definition add_animation (p : Props)
    (s : gmap string AnimationRanges * list Diagnostic)
    (entry : string * AnimationDef) : gmap string AnimationRanges * list Diagnostic :=
  let '(ranges, console) := s in
  let '(key, anim) := entry in
  let frames := generateFrames (row anim) (startFrame anim) (endFrame anim) (columns p) in
  if (length frames <? 2)%nat then
    (ranges, console ++ [TooFewFramesWarn key (length frames)])
  else
    let '(arrays, console') :=
      forEach (push_frame p) frames
        ({| inputRange := []; outputRangeX := []; outputRangeY := [] |}, console) in
    (<[key := {| translateX_range := {| input := inputRange arrays; output := outputRangeX arrays |};
                 translateY_range := {| input := inputRange arrays; output := outputRangeY arrays |} |}]>
       ranges,
     console').

(** [Object.entries(animations).forEach(...)]: the entries of the map, each
    key once.  The entries are visited in the order [map_to_list] lists
    them, which need not be the order in which the keys were written; it
    decides only how the warnings of different animations interleave. *)
Definition interpolationRanges (p : Props) : gmap string AnimationRanges * list Diagnostic :=
  foldl (add_animation p) (∅, []) (map_to_list (animations p)).

(** The keyframes of a curve: position [j] pairs the [j]-th input with the
    [j]-th outputs. *)
Definition keyframe (r : AnimationRanges) (j : nat) : option (Z * Coords) :=
  match input (translateX_range r) !! j,
        output (translateX_range r) !! j,
        output (translateY_range r) !! j with
  | Some t, Some x, Some y => Some (t, {| translateX := x; translateY := y |})
  | _, _, _ => None
  end.

Definition testProps : Props :=
  {| columns := 5; rows := 1;
     animations := {[ "run" := {| row := 0; startFrame := 0; endFrame := 4 |} ]};
     computedFrameWidth := 256 / 5; computedFrameHeight := 256;
     offsetX := 0; offsetY := 0; DEV := true |}.

(** ** The animated value (l.180) and React Native's [Animated] API

    The component drives one [Animated.Value] through [setValue],
    [stopAnimation], [Animated.timing(...).start] and
    [Animated.loop(...).start].  The definitions of this section model the
    documented contract of that API:
    - [start(callback)]: the callback is called when the animation is done,
      with [{finished: true}] when it ran to its end and with
      [{finished: false}] when it was stopped before;
    - [setValue(v)]: stops any animation running on the value, then sets it;
    - [stopAnimation(cb)]: stops any running animation, then calls [cb] with
      the value;
    - [Animated.loop(animation)]: restarts [animation] from the starting
      value of the [Animated.Value] each time it ends; started without a
      callback here. *)

(** The [easing] of a timing animation, one of the functions of React
    Native's [Easing]: [Easing.linear], [Easing.ease], [Easing.quad],
    [Easing.cubic], or [EaseInOut], the one [Animated.timing] uses when the
    configuration names none. *)
Inductive EasingFunction := Linear | Ease | Quad | Cubic | EaseInOut.

(** Second argument of [Animated.timing] (l.350-355). *)
Record TimingConfig := {
  toValue : Q;
  duration : Q;
  easing : EasingFunction;
  useNativeDriver : bool
}.

(** The arrow function passed to [animation.start] at l.360-365.  It closes
    over [resetAfterFinish] and [onFinish] and takes no parameter: the
    [{finished}] result it is called with is not looked at. *)
Record EndCallback := {
  cb_resetAfterFinish : bool;
  cb_onFinish : option Callback
}.

(** An animation started on the value. *)
Record Running := {
  config : TimingConfig;
  looping : bool;                (* wrapped in [Animated.loop] (l.358) *)
  onEnd : option EndCallback     (* argument of [start] *)
}.

(** State of one mounted component: [animationType] (l.181), the current
    value of [animatedValue] and the animation driving it, the console and
    the calls made to the caller's callbacks, each with the value of
    [animatedValue] at the time of the call. *)
Record Session := {
  animationType : option string;
  progress : Q;
  running : option Running;
  console : list Diagnostic;
  called : list (Callback * Q)
}.

Definition initial : Session :=
  {| animationType := None; progress := 0; running := None; console := []; called := [] |}.

Definition setAnimationType (t : string) (s : Session) : Session :=
  {| animationType := Some t; progress := progress s; running := running s;
     console := console s; called := called s |}.

Definition updateValue (v : Q) (s : Session) : Session :=
  {| animationType := animationType s; progress := v; running := running s;
     console := console s; called := called s |}.

Definition setRunning (r : option Running) (s : Session) : Session :=
  {| animationType := animationType s; progress := progress s; running := r;
     console := console s; called := called s |}.

Definition log (d : Diagnostic) (s : Session) : Session :=
  {| animationType := animationType s; progress := progress s; running := running s;
     console := console s ++ [d]; called := called s |}.

(** Calling an optional callback; an absent one is the no-op default. *)
Definition invoke (cb : option Callback) (s : Session) : Session :=
  match cb with
  | None => s
  | Some f =>
      {| animationType := animationType s; progress := progress s; running := running s;
         console := console s; called := called s ++ [(f, progress s)] |}
  end.

(** Body of the completion callback (l.361-364).  The engine clears the
    value's animation before it calls back, so the [setValue(0)] of l.362
    has nothing to stop and only writes the value ([setValue_not_running]
    below). *)
Definition completion (c : EndCallback) (s : Session) : Session :=
  let s := if cb_resetAfterFinish c then updateValue 0 s else s in
  invoke (cb_onFinish c) s.

(** The animation on the value ends, naturally or not: it is detached and
    its [start] callback, if any, is called. *)
Definition endAnimation (s : Session) : Session :=
  match running s with
  | None => s
  | Some a =>
      let s := setRunning None s in
      match onEnd a with
      | None => s
      | Some c => completion c s
      end
  end.

(** [animatedValue.setValue(v)] *)
Definition setValue (v : Q) (s : Session) : Session :=
  updateValue v (endAnimation s).

(** [animatedValue.stopAnimation(cb)] *)
Definition stopAnimation (cb : option Callback) (s : Session) : Session :=
  invoke cb (endAnimation s).

(** [Animated.timing(animatedValue, config).start(callback)] *)
Definition start (cfg : TimingConfig) (callback : option EndCallback) (s : Session) : Session :=
  setRunning (Some {| config := cfg; looping := false; onEnd := callback |}) (endAnimation s).

(** [Animated.loop(Animated.timing(animatedValue, config)).start()] *)
Definition loop_start (cfg : TimingConfig) (s : Session) : Session :=
  setRunning (Some {| config := cfg; looping := true; onEnd := None |}) (endAnimation s).

(** ** play, stop, reset (l.322-384) *)

Record PlayOptions := {
  type : string;
  fps : option Q;
  loop : option bool;
  resetAfterFinish : option bool;
  onFinish : option Callback
}.

Definition DEFAULT_FPS : Q := 24.

(** [play] (l.322-369).  An option left out takes its default.  The duration
    is [(frames.length / fps) * 1000]; for [fps = 0] the division of [Q]
    gives 0 where JavaScript's gives Infinity. *)
Definition play (p : Props) (o : PlayOptions) (s : Session) : Session :=
  let fps := default DEFAULT_FPS (fps o) in
  let loop := default false (loop o) in
  let resetAfterFinish := default false (resetAfterFinish o) in
  match animations p !! type o with
  | None => log (NotFound (type o)) s
  | Some anim =>
      let frames := generateFrames (row anim) (startFrame anim) (endFrame anim) (columns p) in
      if (length frames <? 2)%nat then
        log (TooFewFramesError (type o) (length frames)) s
      else
        let s := setAnimationType (type o) s in
        let s := setValue 0 s in
        let duration := (inject_Z (Z.of_nat (length frames)) / fps * 1000)%Q in
        let animation :=
          {| toValue := inject_Z (Z.of_nat (length frames));
             duration := duration;
             easing := Linear;
             useNativeDriver := true |} in
        if loop then loop_start animation s
        else start animation
               (Some {| cb_resetAfterFinish := resetAfterFinish; cb_onFinish := onFinish o |}) s
  end.

(** [stop] (l.371-376) and [reset] (l.378-384). *)
Definition stop (cb : option Callback) (s : Session) : Session :=
  stopAnimation cb s.

Definition reset (cb : option Callback) (s : Session) : Session :=
  setValue 0 (stopAnimation cb s).

(** ** The engine's own steps

    While an animation runs the engine moves the value ([advance]) and, when
    the value has reached [toValue], ends the run ([finish]): a looping
    animation snaps back to the starting value [0] of [animatedValue] and
    goes on; any other is detached and its [start] callback called. *)

Definition advance (v : Q) (s : Session) : Session :=
  match running s with
  | None => s
  | Some _ => updateValue v s
  end.

Definition finish (s : Session) : Session :=
  match running s with
  | None => s
  | Some a =>
      if looping a then updateValue 0 s
      else endAnimation (updateValue (toValue (config a)) s)
  end.

(** What can happen to a mounted component. *)
Inductive Action :=
| Play (o : PlayOptions)
| Stop (cb : option Callback)
| Reset (cb : option Callback)
| Advance (v : Q)
| Finish.

Definition step (p : Props) (a : Action) (s : Session) : Session :=
  match a with
  | Play o => play p o s
  | Stop cb => stop cb s
  | Reset cb => reset cb s
  | Advance v => advance v s
  | Finish => finish s
  end.

Definition run (p : Props) (actions : list Action) (s : Session) : Session :=
  foldl (λ s a, step p a s) s actions.

Inductive reachable (p : Props) : Session → Prop :=
| reachable_initial : reachable p initial
| reachable_step a s : reachable p s → reachable p (step p a s).

Definition playRun (f : option Callback) (r : bool) : PlayOptions :=
  {| type := "run"; fps := None; loop := None; resetAfterFinish := Some r; onFinish := f |}.

(** ** Definitions used by the statements *)

Definition origin : Coords := {| translateX := 0; translateY := 0 |}.

Definition outOfBounds (p : Props) (frameIndex : Z) : Prop :=
  frameIndex < 0 ∨ columns p * rows p ≤ frameIndex.

Definition framesOf (p : Props) (anim : AnimationDef) : list Z :=
  generateFrames (row anim) (startFrame anim) (endFrame anim) (columns p).

(** The curve [add_animation] stores for a frame list. *)
Definition curve (p : Props) (frames : list Z) : AnimationRanges :=
  let arrays :=
    (forEach (push_frame p) frames
       ({| inputRange := []; outputRangeX := []; outputRangeY := [] |}, [])).1 in
  {| translateX_range := {| input := inputRange arrays; output := outputRangeX arrays |};
     translateY_range := {| input := inputRange arrays; output := outputRangeY arrays |} |}.

(** The curve of an animation, if it gets one. *)
Definition registered (p : Props) (anim : AnimationDef) : option AnimationRanges :=
  if (length (framesOf p anim) <? 2)%nat then None else Some (curve p (framesOf p anim)).

(** What one entry writes on the console while the curves are built. *)
Definition entryConsole (p : Props) (entry : string * AnimationDef) : list Diagnostic :=
  if (length (framesOf p entry.2) <? 2)%nat
  then [TooFewFramesWarn entry.1 (length (framesOf p entry.2))]
  else framesOf p entry.2 ≫= λ f, (getFrameCoords p f).2.

(** The sheets and options of the scenarios. *)
Definition runDef : AnimationDef := {| row := 0; startFrame := 0; endFrame := 4 |}.

(** A one-row sheet whose only animation points at its fourth row. *)
Definition strayProps : Props :=
  {| columns := 5; rows := 1;
     animations := {[ "stray" := {| row := 3; startFrame := 0; endFrame := 1 |} ]};
     computedFrameWidth := 64; computedFrameHeight := 64;
     offsetX := 0; offsetY := 0; DEV := false |}.

(** The configuration [play] hands to [Animated.timing]. *)
Definition timing (frameCount : nat) (fps : Q) : TimingConfig :=
  {| toValue := inject_Z (Z.of_nat frameCount);
     duration := inject_Z (Z.of_nat frameCount) / fps * 1000;
     easing := Linear;
     useNativeDriver := true |}.

Definition singleProps : Props :=
  {| columns := 5; rows := 1;
     animations := {[ "run" := {| row := 0; startFrame := 0; endFrame := 0 |} ]};
     computedFrameWidth := 64; computedFrameHeight := 64;
     offsetX := 0; offsetY := 0; DEV := true |}.

Definition reversedProps : Props :=
  {| columns := 5; rows := 1;
     animations := {[ "back" := {| row := 0; startFrame := 4; endFrame := 0 |} ]};
     computedFrameWidth := 64; computedFrameHeight := 64;
     offsetX := 0; offsetY := 0; DEV := true |}.

(** ** currentInterpolation (l.273-311) and unmounting (l.314-318) *)

(** What is bound to a transform of the image: one of the two constant
    [defaultTranslateX] / [defaultTranslateY] values (both 0, l.184-185), or
    [animatedValue.interpolate] over an input and an output range, clamped. *)
Inductive Interpolation :=
| DefaultValue
| Interpolate (inputRange : list Z) (outputRange : list Q).

(** One axis of l.283-299. *)
Definition interpolationOf (r : Range) : Interpolation :=
  if (2 <=? length (input r))%nat && (2 <=? length (output r))%nat
  then Interpolate (input r) (output r)
  else DefaultValue.

(** [!animationType] holds for [null] and for the empty string. *)
Definition currentInterpolation (ranges : gmap string AnimationRanges)
    (animationType : option string) : Interpolation * Interpolation :=
  match animationType with
  | None => (DefaultValue, DefaultValue)
  | Some t =>
      if String.eqb t "" then (DefaultValue, DefaultValue)
      else
        match ranges !! t with
        | None => (DefaultValue, DefaultValue)
        | Some r => (interpolationOf (translateX_range r), interpolationOf (translateY_range r))
        end
  end.

(** The clean-up of the effect of l.314-318: [animatedValue.stopAnimation()]. *)
Definition unmount (s : Session) : Session :=
  stopAnimation None s.

(** ** Sizes (l.81-85, l.111-178, l.424) *)

Module Layout.

(** The check of l.81: the component warns, and goes on. *)
Definition gridWarning (columns rows : Z) : bool :=
  (columns <=? 1) || (rows <? 1).

(** An optional numeric prop used as a condition: absent and 0 are false. *)
Definition truthy (x : option Q) : option Q :=
  match x with
  | Some q => if Qeq_bool q 0 then None else Some q
  | None => None
  end.

Record Dimensions := { width : Q; height : Q }.

(** [useState] of l.89-95. *)
Definition noDimensions : Dimensions := {| width := 0; height := 0 |}.

(** [computedFrameWidth] (l.151-155), a function of its dependencies. *)
Definition computedFrameWidth (frameWidth width : option Q) (columns : Z) (imageWidth : Q) : Q :=
  match truthy frameWidth, truthy width with
  | Some fw, _ => fw
  | None, Some w => w / inject_Z columns
  | None, None => imageWidth / inject_Z columns
  end.

(** [computedFrameHeight] (l.157-161). *)
Definition computedFrameHeight (frameHeight height : option Q) (rows : Z) (imageHeight : Q) : Q :=
  match truthy frameHeight, truthy height with
  | Some fh, _ => fh
  | None, Some h => h / inject_Z rows
  | None, None => imageHeight / inject_Z rows
  end.

(** [[displayWidth, displayHeight]] (l.164-178). *)
Definition displaySize (width height : option Q) (imageDimensions : Dimensions) : Q * Q :=
  match truthy width, truthy height with
  | Some w, Some h => (w, h)
  | Some w, None =>
      let computedHeight := (Layout.height imageDimensions / Layout.width imageDimensions * w)%Q in
      (w, computedHeight)
  | None, Some h =>
      let computedWidth := (Layout.width imageDimensions / Layout.height imageDimensions * h)%Q in
      (computedWidth, h)
  | None, None => (Layout.width imageDimensions, Layout.height imageDimensions)
  end.

(** The image is rendered when both dimensions are positive (l.424). *)
Definition rendered (imageDimensions : Dimensions) : bool :=
  negb (Qle_bool (Layout.width imageDimensions) 0)
  && negb (Qle_bool (Layout.height imageDimensions) 0).

(** The [source] prop: a [require]d asset (a number) or an object with an
    optional [uri]. *)
Inductive ImageSource :=
| RequireSource (asset : Z)
| URISource (uri : option string).

(** How [Image.getSize] answers: it calls the success callback, the failure
    callback, or has not called back yet. *)
Inductive GetSizeOutcome :=
| GetSizeSuccess (imgWidth imgHeight : Q)
| GetSizeFailure
| GetSizePending.

(** The [console.error] messages of l.128, l.140 and l.147. *)
Inductive LoadError :=
| LocalResolveFailed
| RemoteGetSizeFailed
| InvalidSource.

(** What the effect of l.111-148 does: the argument of the
    [setImageDimensions] call, if there is one, the errors written, and
    whether [Image.resolveAssetSource] and [Image.getSize] were called. *)
Record LoadResult := {
  setImageDimensions : option Dimensions;
  errors : list LoadError;
  resolveCalled : bool;
  getSizeCalled : bool
}.

(** The effect of l.111-148.  [resolveAssetSource] and [getSize] stand for
    the two functions of [Image]; a resolved asset counts when both its
    width and its height are non-zero. *)
Definition loadImageDimensions (source : ImageSource) (width height : option Q)
    (resolveAssetSource : Z → option Dimensions)
    (getSize : string → GetSizeOutcome) : LoadResult :=
  match truthy width, truthy height with
  | Some w, Some h =>
      {| setImageDimensions := Some {| width := w; height := h |};
         errors := []; resolveCalled := false; getSizeCalled := false |}
  | _, _ =>
      match source with
      | RequireSource asset =>
          match resolveAssetSource asset with
          | Some resolved =>
              if Qeq_bool (Layout.width resolved) 0 || Qeq_bool (Layout.height resolved) 0
              then {| setImageDimensions := None; errors := [LocalResolveFailed];
                      resolveCalled := true; getSizeCalled := false |}
              else {| setImageDimensions :=
                        Some {| width := Layout.width resolved; height := Layout.height resolved |};
                      errors := []; resolveCalled := true; getSizeCalled := false |}
          | None =>
              {| setImageDimensions := None; errors := [LocalResolveFailed];
                 resolveCalled := true; getSizeCalled := false |}
          end
      | URISource (Some uri) =>
          if String.eqb uri ""
          then {| setImageDimensions := None; errors := [InvalidSource];
                  resolveCalled := false; getSizeCalled := false |}
          else
            match getSize uri with
            | GetSizeSuccess imgWidth imgHeight =>
                {| setImageDimensions := Some {| width := imgWidth; height := imgHeight |};
                   errors := []; resolveCalled := false; getSizeCalled := true |}
            | GetSizeFailure =>
                {| setImageDimensions := None; errors := [RemoteGetSizeFailed];
                   resolveCalled := false; getSizeCalled := true |}
            | GetSizePending =>
                {| setImageDimensions := None; errors := [];
                   resolveCalled := false; getSizeCalled := true |}
            end
      | URISource None =>
          {| setImageDimensions := None; errors := [InvalidSource];
             resolveCalled := false; getSizeCalled := false |}
      end
  end.

(** [imageDimensions] after the effect has run: what it set, or else what
    the state held before, [noDimensions] on a freshly mounted component. *)
Definition imageDimensionsAfter (previous : Dimensions) (r : LoadResult) : Dimensions :=
  default previous (setImageDimensions r).

End Layout.

(** ** Further definitions used by the statements *)

(** The sheet of the example application (example/src/App.tsx), with frames
    of 32 by 48. *)
Definition goatProps : Props :=
  {| columns := 3; rows := 4;
     animations :=
       {[ "down" := {| row := 0; startFrame := 0; endFrame := 2 |};
          "left" := {| row := 1; startFrame := 0; endFrame := 2 |};
          "right" := {| row := 2; startFrame := 0; endFrame := 2 |};
          "up" := {| row := 3; startFrame := 0; endFrame := 2 |} ]};
     computedFrameWidth := 32; computedFrameHeight := 48;
     offsetX := 0; offsetY := 0; DEV := true |}.

(** The integers a JavaScript number holds exactly, between
    [Number.MIN_SAFE_INTEGER] and [Number.MAX_SAFE_INTEGER]. *)
Definition safeInteger (z : Z) : Prop :=
  - 2 ^ 53 < z < 2 ^ 53.

(** The arguments of [generateFrames] for which every number the loop
    computes is such an integer: the base frame, the counter up to
    [endFrame + 1] and the frames pushed. *)
Definition safeFrames (row startFrame endFrame totalColumns : Z) : Prop :=
  safeInteger row ∧ safeInteger totalColumns
  ∧ safeInteger startFrame ∧ safeInteger (endFrame + 1)
  ∧ safeInteger (row * totalColumns)
  ∧ safeInteger (row * totalColumns + startFrame)
  ∧ safeInteger (row * totalColumns + endFrame).

(** How often the callback [f] has been called so far. *)
Definition calls (f : Callback) (s : Session) : nat :=
  length (filter (λ c, c.1 = f) (called s)).

(** The steps the engine takes by itself. *)
Definition engineStep (a : Action) : Prop :=
  match a with
  | Advance _ | Finish => True
  | Play _ | Stop _ | Reset _ => False
  end.

(** The steps that do not start a run and do not pass [f] as their own
    callback. *)
Definition withoutCallback (f : Callback) (a : Action) : Prop :=
  match a with
  | Play _ => False
  | Stop cb | Reset cb => cb ≠ Some f
  | Advance _ | Finish => True
  end.

(** * Properties *)

(** ** Scenarios of the test suite *)

Example generateFrames_run : generateFrames 0 0 4 5 = [0; 1; 2; 3; 4].
Proof. reflexivity. Qed.

Example getFrameCoords_5 :
  getFrameCoords {| columns := 4; rows := 4; animations := ∅;
                    computedFrameWidth := 64; computedFrameHeight := 64;
                    offsetX := 0; offsetY := 0; DEV := true |} 5
  = ({| translateX := -64 # 1; translateY := -64 # 1 |}, []).
Proof. reflexivity. Qed.

(** ** Frame lists *)

Lemma generateFrames_loop_seqZ baseFrame endFrame i frames :
  generateFrames_loop baseFrame endFrame i frames
  = frames ++ ((λ j, baseFrame + j) <$> seqZ i (endFrame + 1 - i)).
Proof.
  funelim (generateFrames_loop baseFrame endFrame i frames).
  - match goal with IH : generateFrames_loop _ _ _ _ = _ ++ _ |- _ => rewrite IH end.
    rewrite (seqZ_cons i) by lia.
    rewrite <- app_assoc. simpl. do 4 f_equal. lia.
  - rewrite seqZ_nil by lia. simpl. by rewrite app_nil_r.
Qed.

Lemma generateFrames_seqZ row startFrame endFrame totalColumns :
  generateFrames row startFrame endFrame totalColumns
  = (λ i, row * totalColumns + i) <$> seqZ startFrame (endFrame - startFrame + 1).
Proof.
  unfold generateFrames. rewrite generateFrames_loop_seqZ. simpl.
  do 2 f_equal. lia.
Qed.

Lemma generateFrames_length row startFrame endFrame totalColumns :
  length (generateFrames row startFrame endFrame totalColumns)
  = Z.to_nat (endFrame - startFrame + 1).
Proof. by rewrite generateFrames_seqZ, length_fmap, length_seqZ. Qed.

Lemma generateFrames_lookup row startFrame endFrame totalColumns (k : nat) :
  (k < Z.to_nat (endFrame - startFrame + 1))%nat →
  generateFrames row startFrame endFrame totalColumns !! k
  = Some (row * totalColumns + (startFrame + Z.of_nat k)).
Proof.
  intros Hk. rewrite generateFrames_seqZ, list_lookup_fmap.
  rewrite (lookup_seqZ_lt startFrame) by lia. done.
Qed.

Lemma generateFrames_reversed row startFrame endFrame totalColumns :
  endFrame < startFrame →
  generateFrames row startFrame endFrame totalColumns = [].
Proof. intros H. rewrite generateFrames_seqZ, seqZ_nil by lia. done. Qed.

(** C6.  For integer arguments with [startFrame <= endFrame], as an
    animation definition has them, and within the range where the numbers
    of the loop are exact, [generateFrames] returns exactly
    [endFrame - startFrame + 1] entries; the entry at position [k] is
    [row * totalColumns + startFrame + k], so the values run from
    [row * totalColumns + startFrame] to [row * totalColumns + endFrame] in
    that order. *)
Theorem generateFrames_entries row startFrame endFrame totalColumns :
  startFrame ≤ endFrame →
  safeFrames row startFrame endFrame totalColumns →
  let frames := generateFrames row startFrame endFrame totalColumns in
  Z.of_nat (length frames) = endFrame - startFrame + 1
  ∧ head frames = Some (row * totalColumns + startFrame)
  ∧ last frames = Some (row * totalColumns + endFrame)
  ∧ ∀ k : nat,
      frames !! k
      = if bool_decide (Z.of_nat k < endFrame - startFrame + 1)
        then Some (row * totalColumns + startFrame + Z.of_nat k)
        else None.
Proof.
  intros Hle _. simpl. split; [|split; [|split]].
  - rewrite generateFrames_length. lia.
  - rewrite head_lookup, generateFrames_lookup by lia. f_equal. lia.
  - rewrite last_lookup, generateFrames_length, generateFrames_lookup by lia. f_equal. lia.
  - intros k. case_bool_decide as Hk.
    + rewrite generateFrames_lookup by lia. f_equal. lia.
    + apply lookup_ge_None. rewrite generateFrames_length. lia.
Qed.

(** The frames of the test suite's run: row 0, frames 0 to 4 of 5 columns. *)
Lemma generateFrames_entries_witness :
  generateFrames 0 0 4 5 = [0; 1; 2; 3; 4]
  ∧ Z.of_nat (length (generateFrames 0 0 4 5)) = 4 - 0 + 1
  ∧ head (generateFrames 0 0 4 5) = Some (0 * 5 + 0)
  ∧ last (generateFrames 0 0 4 5) = Some (0 * 5 + 4).
Proof.
  split; [reflexivity|].
  destruct (generateFrames_entries 0 0 4 5) as (Hn & Hh & Hl & _).
  - lia.
  - unfold safeFrames, safeInteger. repeat split; reflexivity.
  - auto.
Defined.

(** ** Frame coordinates *)

Lemma getFrameCoords_outOfBounds p frameIndex :
  outOfBounds p frameIndex →
  getFrameCoords p frameIndex
  = (origin, if DEV p then [FrameOutOfBounds frameIndex (columns p * rows p)] else []).
Proof.
  intros H. unfold getFrameCoords.
  destruct (Z.ltb_spec frameIndex 0); [done|].
  destruct (Z.geb_spec frameIndex (columns p * rows p)); [done|].
  unfold outOfBounds in H. lia.
Qed.

(** C1.  For an index inside the grid, [getFrameCoords] returns
    [translateX = -(frameIndex % columns) * frameWidth - offsetX] and
    [translateY = -floor(frameIndex / columns) * frameHeight - offsetY], and
    warns about nothing; the remainder is the mathematical [mod] for a
    positive column count.  On a 4-column sheet of 64 x 64 frames without
    offsets, frame 5 (whenever the sheet has it) is at [(-64, -64)]. *)
Theorem getFrameCoords_in_bounds p frameIndex :
  0 ≤ frameIndex < columns p * rows p →
  getFrameCoords p frameIndex
  = ({| translateX := - inject_Z (Z.rem frameIndex (columns p)) * computedFrameWidth p - offsetX p;
        translateY := - inject_Z (frameIndex / columns p) * computedFrameHeight p - offsetY p |},
     [])
  ∧ (0 < columns p → Z.rem frameIndex (columns p) = frameIndex mod columns p)
  ∧ ∀ rows' anims dev, 5 < 4 * rows' →
      getFrameCoords {| columns := 4; rows := rows'; animations := anims;
                        computedFrameWidth := 64; computedFrameHeight := 64;
                        offsetX := 0; offsetY := 0; DEV := dev |} 5
      = ({| translateX := -64 # 1; translateY := -64 # 1 |}, []).
Proof.
  intros Hin. split; [|split].
  - unfold getFrameCoords.
    destruct (Z.ltb_spec frameIndex 0); [lia|].
    destruct (Z.geb_spec frameIndex (columns p * rows p)); [lia|]. done.
  - intros Hc. apply Z.rem_mod_nonneg; lia.
  - intros rows' anims dev Hr. unfold getFrameCoords. cbn [columns rows].
    destruct (Z.geb_spec 5 (4 * rows')); [lia|]. reflexivity.
Qed.

Lemma getFrameCoords_in_bounds_witness :
  getFrameCoords {| columns := 4; rows := 4; animations := ∅;
                    computedFrameWidth := 64; computedFrameHeight := 64;
                    offsetX := 0; offsetY := 0; DEV := true |} 5
  = ({| translateX := -64 # 1; translateY := -64 # 1 |}, []).
Proof.
  refine (proj1 (getFrameCoords_in_bounds
            {| columns := 4; rows := 4; animations := ∅;
               computedFrameWidth := 64; computedFrameHeight := 64;
               offsetX := 0; offsetY := 0; DEV := true |} 5 _)).
  simpl. lia.
Defined.

(** C8, as amended.  For an index outside the grid [getFrameCoords] returns
    [(0, 0)]; in a development build ([__DEV__]) it warns once, naming the
    index and the grid size, in a production build it says nothing.  It
    returns in either case. *)
Theorem getFrameCoords_out_of_bounds p frameIndex :
  frameIndex < 0 ∨ columns p * rows p ≤ frameIndex →
  ∃ diagnostics,
    getFrameCoords p frameIndex = ({| translateX := 0; translateY := 0 |}, diagnostics)
    ∧ diagnostics
      = (if DEV p then [FrameOutOfBounds frameIndex (columns p * rows p)] else [])
    ∧ Forall (λ d, level d = Warn) diagnostics.
Proof.
  intros H. eexists. split; [by apply getFrameCoords_outOfBounds|]. split; [done|].
  destruct (DEV p); repeat constructor.
Qed.

Lemma getFrameCoords_out_of_bounds_witness :
  ∃ diagnostics,
    getFrameCoords testProps 7 = ({| translateX := 0; translateY := 0 |}, diagnostics)
    ∧ diagnostics = [FrameOutOfBounds 7 5]
    ∧ Forall (λ d, level d = Warn) diagnostics.
Proof.
  apply (getFrameCoords_out_of_bounds testProps 7). right. simpl. lia.
Defined.

(** C8, as stated, fails in a production build: frame -1 of the test sheet
    yields [(0, 0)] and no diagnostic. *)
Lemma getFrameCoords_silent_in_production :
  let p := {| columns := 5; rows := 1; animations := ∅;
              computedFrameWidth := 64; computedFrameHeight := 64;
              offsetX := 0; offsetY := 0; DEV := false |} in
  outOfBounds p (-1)
  ∧ getFrameCoords p (-1) = (origin, [])
  ∧ ¬ ∃ d, d ∈ (getFrameCoords p (-1)).2 ∧ level d = Warn.
Proof.
  simpl. split; [left; lia|]. split; [reflexivity|].
  intros (d & Hd & _). vm_compute in Hd. by apply elem_of_nil in Hd.
Qed.

(** ** Curves *)

Section Doubled.
Context {A B : Type} (g h : A → B).

Lemma doubled_length (l : list A) :
  length (l ≫= λ x, [g x; h x]) = (2 * length l)%nat.
Proof. induction l as [|x l IH]; [done|]. rewrite bind_cons. simpl. lia. Qed.

Lemma doubled_lookup_even (l : list A) (k : nat) :
  (l ≫= λ x, [g x; h x]) !! (2 * k)%nat = g <$> l !! k.
Proof.
  revert k. induction l as [|x l IH]; intros k; [done|].
  rewrite bind_cons. destruct k as [|k]; [done|].
  replace (2 * S k)%nat with (S (S (2 * k))) by lia. apply IH.
Qed.

Lemma doubled_lookup_odd (l : list A) (k : nat) :
  (l ≫= λ x, [g x; h x]) !! (2 * k + 1)%nat = h <$> l !! k.
Proof.
  revert k. induction l as [|x l IH]; intros k; [done|].
  rewrite bind_cons. destruct k as [|k]; [done|].
  replace (2 * S k + 1)%nat with (S (S (2 * k + 1))) by lia. apply IH.
Qed.
End Doubled.

(** What [frames.forEach] leaves in the three arrays and on the console. *)
Lemma forEach_push_frame p frames index arrays console :
  forEach_from (push_frame p) frames index (arrays, console)
  = ({| inputRange :=
          inputRange arrays ++ (seq index (length frames) ≫= λ k, [Z.of_nat k; Z.of_nat k + 1]);
        outputRangeX :=
          outputRangeX arrays
          ++ (frames ≫= λ f, [translateX (getFrameCoords p f).1; translateX (getFrameCoords p f).1]);
        outputRangeY :=
          outputRangeY arrays
          ++ (frames ≫= λ f, [translateY (getFrameCoords p f).1; translateY (getFrameCoords p f).1]) |},
     console ++ (frames ≫= λ f, (getFrameCoords p f).2)).
Proof.
  revert index arrays console.
  induction frames as [|f frames IH]; intros index arrays console.
  - simpl. rewrite !app_nil_r. by destruct arrays.
  - cbn [forEach_from]. unfold push_frame at 2.
    destruct (getFrameCoords p f) as [coords warned] eqn:Hf.
    rewrite IH. cbn [inputRange outputRangeX outputRangeY length seq].
    rewrite !bind_cons, Hf, <- !app_assoc. done.
Qed.

Lemma add_animation_ranges p ranges console key anim :
  (add_animation p (ranges, console) (key, anim)).1
  = match registered p anim with
    | Some r => <[key := r]> ranges
    | None => ranges
    end.
Proof.
  unfold add_animation, registered, curve, forEach, framesOf.
  destruct (_ <? 2)%nat; [done|].
  rewrite !forEach_push_frame. done.
Qed.

Lemma add_animation_console p ranges console key anim :
  (add_animation p (ranges, console) (key, anim)).2
  = console
    ++ (if (length (framesOf p anim) <? 2)%nat
        then [TooFewFramesWarn key (length (framesOf p anim))]
        else framesOf p anim ≫= λ f, (getFrameCoords p f).2).
Proof.
  unfold add_animation, forEach, framesOf.
  destruct (_ <? 2)%nat; [done|].
  rewrite !forEach_push_frame. done.
Qed.

Lemma foldl_add_animation_lookup p (l : list (string * AnimationDef)) ranges console key :
  NoDup l.*1 →
  (foldl (add_animation p) (ranges, console) l).1 !! key
  = match (list_to_map l : gmap string AnimationDef) !! key ≫= registered p with
    | Some r => Some r
    | None => ranges !! key
    end.
Proof.
  revert ranges console.
  induction l as [|[k a] l IH]; intros ranges console Hnd; [done|].
  apply NoDup_cons in Hnd as [Hk Hnd]. cbn [foldl].
  destruct (add_animation p (ranges, console) (k, a)) as [ranges' console'] eqn:Hadd.
  rewrite IH by done.
  assert (ranges' = (add_animation p (ranges, console) (k, a)).1) as -> by by rewrite Hadd.
  rewrite add_animation_ranges. cbn [list_to_map foldr uncurry].
  destruct (decide (k = key)) as [->|Hne].
  - rewrite lookup_insert_eq, (not_elem_of_list_to_map_1 _ key) by done. simpl.
    destruct (registered p a); [by rewrite lookup_insert_eq|done].
  - rewrite lookup_insert_ne by done.
    destruct (list_to_map l !! key ≫= registered p); [done|].
    destruct (registered p a); [by rewrite lookup_insert_ne|done].
Qed.

(** The curve set: an animation is registered exactly when it has at least
    two frames. *)
Lemma interpolationRanges_lookup p key :
  (interpolationRanges p).1 !! key = animations p !! key ≫= registered p.
Proof.
  unfold interpolationRanges.
  rewrite foldl_add_animation_lookup by apply NoDup_fst_map_to_list.
  rewrite list_to_map_to_list, lookup_empty.
  by destruct (animations p !! key ≫= registered p).
Qed.

Lemma foldl_add_animation_console p (l : list (string * AnimationDef)) ranges console :
  (foldl (add_animation p) (ranges, console) l).2 = console ++ (l ≫= entryConsole p).
Proof.
  revert ranges console.
  induction l as [|[k a] l IH]; intros ranges console.
  - simpl. by rewrite app_nil_r.
  - cbn [foldl].
    destruct (add_animation p (ranges, console) (k, a)) as [ranges' console'] eqn:Hadd.
    rewrite IH, bind_cons, app_assoc. f_equal.
    assert (console' = (add_animation p (ranges, console) (k, a)).2) as -> by by rewrite Hadd.
    by rewrite add_animation_console.
Qed.

Lemma interpolationRanges_rejects p key anim :
  animations p !! key = Some anim →
  (length (framesOf p anim) < 2)%nat →
  TooFewFramesWarn key (length (framesOf p anim)) ∈ (interpolationRanges p).2.
Proof.
  intros Hkey Hlen. unfold interpolationRanges.
  rewrite foldl_add_animation_console. simpl.
  apply list_elem_of_bind. exists (key, anim). split.
  - unfold entryConsole. simpl.
    destruct (Nat.ltb_spec (length (framesOf p anim)) 2); [|lia]. apply list_elem_of_here.
  - by apply elem_of_map_to_list.
Qed.

Lemma registered_Some p anim r :
  registered p anim = Some r ↔
  (2 ≤ length (framesOf p anim))%nat ∧ r = curve p (framesOf p anim).
Proof.
  unfold registered. destruct (Nat.ltb_spec (length (framesOf p anim)) 2); split.
  - done.
  - intros [? _]. lia.
  - intros [= <-]. done.
  - by intros [_ ->].
Qed.

Lemma registered_None p anim :
  registered p anim = None ↔ (length (framesOf p anim) < 2)%nat.
Proof.
  unfold registered. destruct (Nat.ltb_spec (length (framesOf p anim)) 2); split;
    try done; lia.
Qed.

(** The keyframes of a registered curve, two per frame. *)
Lemma curve_keyframes p frames :
  let r := curve p frames in
  input (translateX_range r) = input (translateY_range r)
  ∧ length (input (translateX_range r)) = (2 * length frames)%nat
  ∧ length (output (translateX_range r)) = (2 * length frames)%nat
  ∧ length (output (translateY_range r)) = (2 * length frames)%nat
  ∧ (∀ (k : nat) f, frames !! k = Some f →
       keyframe r (2 * k) = Some (Z.of_nat k, (getFrameCoords p f).1)
       ∧ keyframe r (2 * k + 1) = Some (Z.of_nat k + 1, (getFrameCoords p f).1))
  ∧ (∀ j : nat, (2 * length frames ≤ j)%nat → keyframe r j = None).
Proof.
  unfold curve, forEach. rewrite forEach_push_frame.
  cbn [fst inputRange outputRangeX outputRangeY app
       translateX_range translateY_range input output].
  split; [done|].
  split; [by rewrite doubled_length, length_seq|].
  split; [by rewrite doubled_length|].
  split; [by rewrite doubled_length|].
  split.
  - intros k f Hk. unfold keyframe.
    cbn [translateX_range translateY_range input output].
    assert (seq 0 (length frames) !! k = Some k) as Hseq.
    { apply lookup_seq. split; [done|]. by eapply lookup_lt_Some. }
    rewrite !doubled_lookup_even, !doubled_lookup_odd, Hk, Hseq. simpl.
    by destruct (getFrameCoords p f).1.
  - intros j Hj. unfold keyframe.
    cbn [translateX_range translateY_range input output].
    rewrite (lookup_ge_None_2 _ j); [done|].
    by rewrite doubled_length, length_seq.
Qed.

(** C2.  An animation whose frame list has [n >= 2] entries is registered
    with a curve of exactly [2 n] keyframes: the frame at position [k] of
    the list gives the keyframes number [2 k] and [2 k + 1], at progress [k]
    and [k + 1], both carrying the offset [getFrameCoords] returns for that
    frame. *)
Theorem curve_is_step_function p key anim :
  animations p !! key = Some anim →
  (2 ≤ length (framesOf p anim))%nat →
  ∃ r,
    (interpolationRanges p).1 !! key = Some r
    ∧ input (translateX_range r) = input (translateY_range r)
    ∧ length (input (translateX_range r)) = (2 * length (framesOf p anim))%nat
    ∧ length (output (translateX_range r)) = (2 * length (framesOf p anim))%nat
    ∧ length (output (translateY_range r)) = (2 * length (framesOf p anim))%nat
    ∧ (∀ (k : nat) f, framesOf p anim !! k = Some f →
         keyframe r (2 * k) = Some (Z.of_nat k, (getFrameCoords p f).1)
         ∧ keyframe r (2 * k + 1) = Some (Z.of_nat k + 1, (getFrameCoords p f).1))
    ∧ (∀ j : nat, (2 * length (framesOf p anim) ≤ j)%nat → keyframe r j = None).
Proof.
  intros Hkey Hlen. exists (curve p (framesOf p anim)). split.
  - rewrite interpolationRanges_lookup, Hkey. simpl.
    apply registered_Some. done.
  - apply curve_keyframes.
Qed.

(** The scenario of the test suite: five frames, ten keyframes. *)
Lemma curve_is_step_function_witness :
  framesOf testProps runDef = [0; 1; 2; 3; 4]
  ∧ ∃ r,
      (interpolationRanges testProps).1 !! "run" = Some r
      ∧ input (translateX_range r) = input (translateY_range r)
      ∧ length (input (translateX_range r)) = 10%nat
      ∧ length (output (translateX_range r)) = 10%nat
      ∧ length (output (translateY_range r)) = 10%nat
      ∧ (∀ (k : nat) f, [0; 1; 2; 3; 4] !! k = Some f →
           keyframe r (2 * k) = Some (Z.of_nat k, (getFrameCoords testProps f).1)
           ∧ keyframe r (2 * k + 1) = Some (Z.of_nat k + 1, (getFrameCoords testProps f).1))
      ∧ (∀ j : nat, (10 ≤ j)%nat → keyframe r j = None).
Proof.
  split; [reflexivity|].
  apply (curve_is_step_function testProps "run" runDef).
  - reflexivity.
  - vm_compute. lia.
Defined.

(** ** Playback *)

Lemma endAnimation_running s : running (endAnimation s) = None.
Proof.
  unfold endAnimation. destruct (running s) as [a|] eqn:Hr; [|done].
  destruct (onEnd a) as [[[] []]|]; done.
Qed.

Lemma endAnimation_not_running s : running s = None → endAnimation s = s.
Proof. unfold endAnimation. by intros ->. Qed.

Lemma endAnimation_animationType s : animationType (endAnimation s) = animationType s.
Proof.
  unfold endAnimation. destruct (running s) as [a|]; [|done].
  destruct (onEnd a) as [[[] []]|]; done.
Qed.

Lemma endAnimation_console s : console (endAnimation s) = console s.
Proof.
  unfold endAnimation. destruct (running s) as [a|]; [|done].
  destruct (onEnd a) as [[[] []]|]; done.
Qed.

(** The [setValue(0)] of the completion callback runs on a value without
    animation, where [setValue] is the plain update [completion] uses. *)
Lemma setValue_not_running v s : running s = None → setValue v s = updateValue v s.
Proof. intros H. unfold setValue. by rewrite endAnimation_not_running. Qed.

Lemma completion_setValue c s :
  running s = None →
  completion c s
  = invoke (cb_onFinish c) (if cb_resetAfterFinish c then setValue 0 s else s).
Proof. intros H. unfold completion. by rewrite setValue_not_running. Qed.

(** The session a successful [play] leaves. *)
Lemma play_valid p o s anim :
  animations p !! type o = Some anim →
  (2 ≤ length (framesOf p anim))%nat →
  play p o s
  = {| animationType := Some (type o);
       progress := 0;
       running :=
         Some {| config := timing (length (framesOf p anim)) (default DEFAULT_FPS (fps o));
                 looping := default false (loop o);
                 onEnd :=
                   if default false (loop o) then None
                   else Some {| cb_resetAfterFinish := default false (resetAfterFinish o);
                                cb_onFinish := onFinish o |} |};
       console := console s;
       called := called (endAnimation s) |}.
Proof.
  intros Hanim Hlen. unfold play. rewrite Hanim. fold (framesOf p anim).
  destruct (Nat.ltb_spec (length (framesOf p anim)) 2); [lia|].
  assert (running (setValue 0 (setAnimationType (type o) s)) = None) as Hidle.
  { unfold setValue. apply endAnimation_running. }
  unfold loop_start, start. rewrite (endAnimation_not_running _ Hidle).
  unfold setValue, timing.
  destruct s as [t v [[cfg lp [[[] [f|]]|]]|] con cs]; destruct (default false (loop o)); reflexivity.
Qed.

(** The session a failing [play] leaves. *)
Lemma play_invalid p o s :
  (interpolationRanges p).1 !! type o = None →
  play p o s
  = log (match animations p !! type o with
         | None => NotFound (type o)
         | Some anim => TooFewFramesError (type o) (length (framesOf p anim))
         end) s.
Proof.
  rewrite interpolationRanges_lookup. unfold play.
  destruct (animations p !! type o) as [anim|]; [|done]. simpl.
  intros Hreg%registered_None. fold (framesOf p anim).
  by destruct (Nat.ltb_spec (length (framesOf p anim)) 2); [|lia].
Qed.

(** C10.  Frame indices are not checked against the grid when the curves
    are built: an animation with at least two frames is registered, and
    [play] starts it, whatever its frame indices are; a frame outside
    [0, columns * rows) is not dropped but contributes its two keyframes with
    the offset [(0, 0)]. *)
Theorem out_of_grid_frames_are_kept p key anim :
  animations p !! key = Some anim →
  (2 ≤ length (framesOf p anim))%nat →
  ∃ r,
    (interpolationRanges p).1 !! key = Some r
    ∧ length (input (translateX_range r)) = (2 * length (framesOf p anim))%nat
    ∧ (∀ (k : nat) f, framesOf p anim !! k = Some f →
         f < 0 ∨ columns p * rows p ≤ f →
         keyframe r (2 * k) = Some (Z.of_nat k, {| translateX := 0; translateY := 0 |})
         ∧ keyframe r (2 * k + 1) = Some (Z.of_nat k + 1, {| translateX := 0; translateY := 0 |}))
    ∧ (∀ o s, type o = key →
         animationType (play p o s) = Some key
         ∧ progress (play p o s) = 0%Q
         ∧ is_Some (running (play p o s))
         ∧ console (play p o s) = console s).
Proof.
  intros Hkey Hlen. exists (curve p (framesOf p anim)).
  destruct (curve_keyframes p (framesOf p anim)) as (_ & Hin & _ & _ & Hframes & _).
  split.
  { rewrite interpolationRanges_lookup, Hkey. simpl. by apply registered_Some. }
  split; [done|]. split.
  - intros k f Hk Hout. specialize (Hframes k f Hk).
    by rewrite (getFrameCoords_outOfBounds p f Hout) in Hframes.
  - intros o s <-. rewrite (play_valid p o s anim Hkey Hlen). simpl. eauto.
Qed.

Lemma out_of_grid_frames_are_kept_witness :
  framesOf strayProps {| row := 3; startFrame := 0; endFrame := 1 |} = [15; 16]
  ∧ ∃ r,
      (interpolationRanges strayProps).1 !! "stray" = Some r
      ∧ keyframe r 0 = Some (0, {| translateX := 0; translateY := 0 |})
      ∧ keyframe r 1 = Some (1, {| translateX := 0; translateY := 0 |})
      ∧ keyframe r 2 = Some (1, {| translateX := 0; translateY := 0 |})
      ∧ keyframe r 3 = Some (2, {| translateX := 0; translateY := 0 |})
      ∧ ∀ s, animationType
               (play strayProps
                  {| type := "stray"; fps := None; loop := None;
                     resetAfterFinish := None; onFinish := None |} s)
             = Some "stray".
Proof.
  split; [reflexivity|].
  destruct (out_of_grid_frames_are_kept strayProps "stray"
              {| row := 3; startFrame := 0; endFrame := 1 |})
    as (r & Hr & _ & Hk & Hplay).
  - reflexivity.
  - vm_compute. lia.
  - exists r. split; [exact Hr|].
    destruct (Hk 0%nat 15) as [H0 H1]; [reflexivity | right; vm_compute; discriminate |].
    destruct (Hk 1%nat 16) as [H2 H3]; [reflexivity | right; vm_compute; discriminate |].
    do 4 (split; [assumption|]).
    intros s. apply Hplay. reflexivity.
Defined.

(** C3.  [play] on a name with a registered curve, with a frame rate other
    than 0, in any session (so also while the same animation is running),
    sets [animationType] to that name, puts the progress back to [0] and
    starts a linear run from there to [frameCount], the length of the frame
    list, whose duration is [(frameCount / fps) * 1000] milliseconds; it
    writes nothing on the console.  The curve has two keyframes per counted
    frame. *)
Theorem play_starts_run p o s r anim :
  (interpolationRanges p).1 !! type o = Some r →
  animations p !! type o = Some anim →
  ¬ (default DEFAULT_FPS (fps o) == 0)%Q →
  let frameCount := length (framesOf p anim) in
  let fps := default DEFAULT_FPS (fps o) in
  let s' := play p o s in
  length (input (translateX_range r)) = (2 * frameCount)%nat
  ∧ animationType s' = Some (type o)
  ∧ progress s' = 0%Q
  ∧ console s' = console s
  ∧ ∃ a,
      running s' = Some a
      ∧ looping a = default false (loop o)
      ∧ easing (config a) = Linear
      ∧ toValue (config a) = inject_Z (Z.of_nat frameCount)
      ∧ duration (config a) = (inject_Z (Z.of_nat frameCount) / fps * 1000)%Q.
Proof.
  intros Hr Hanim _. simpl.
  rewrite interpolationRanges_lookup, Hanim in Hr. simpl in Hr.
  apply registered_Some in Hr as [Hlen ->].
  rewrite (play_valid p o s anim Hanim Hlen). cbn [animationType progress console running].
  split; [apply curve_keyframes|]. do 3 (split; [done|]).
  eexists. split; [done|]. cbn [looping config easing toValue duration timing].
  done.
Qed.

(** The scenario of the test suite, played while it is already playing: five
    frames at the default 24 frames per second run from 0 to 5 in
    [(5 / 24) * 1000] milliseconds. *)
Lemma play_starts_run_witness :
  let s' := play testProps (playRun None false) (play testProps (playRun None false) initial) in
  animationType s' = Some "run"
  ∧ progress s' = 0%Q
  ∧ ∃ a,
      running s' = Some a
      ∧ looping a = false
      ∧ easing (config a) = Linear
      ∧ toValue (config a) = 5%Q
      ∧ duration (config a) = (5 / 24 * 1000)%Q.
Proof.
  destruct (play_starts_run testProps (playRun None false)
              (play testProps (playRun None false) initial)
              (curve testProps [0; 1; 2; 3; 4]) runDef)
    as (_ & Ht & Hp & _ & a & Ha & Hl & He & Hto & Hd).
  - reflexivity.
  - reflexivity.
  - discriminate.
  - simpl. split; [exact Ht|]. split; [exact Hp|].
    exists a. split; [exact Ha|]. split; [exact Hl|]. split; [exact He|].
    split; [exact Hto|]. exact Hd.
Defined.

(** C5.  An animation with fewer than two frames gets no curve, and [play]
    on a name without a registered curve, unknown or rejected, reports an
    error on the console and changes nothing else in the session. *)
Theorem play_without_curve p :
  (∀ key anim,
     animations p !! key = Some anim →
     (length (framesOf p anim) < 2)%nat →
     (interpolationRanges p).1 !! key = None)
  ∧ ∀ o s,
      (interpolationRanges p).1 !! type o = None →
      ∃ d,
        level d = Error
        ∧ console (play p o s) = console s ++ [d]
        ∧ animationType (play p o s) = animationType s
        ∧ progress (play p o s) = progress s
        ∧ running (play p o s) = running s
        ∧ called (play p o s) = called s.
Proof.
  split.
  - intros key anim Hkey Hlen. rewrite interpolationRanges_lookup, Hkey. simpl.
    by apply registered_None.
  - intros o s Hnone. rewrite (play_invalid p o s Hnone).
    eexists. split; [|done]. by destruct (animations p !! type o).
Qed.

(** The one-frame animation of the test suite is rejected; playing it, or
    an unknown name, in a session where a run is in flight changes nothing
    but the console. *)
Lemma play_without_curve_witness :
  (interpolationRanges singleProps).1 !! "run" = None
  ∧ (interpolationRanges singleProps).2 = [TooFewFramesWarn "run" 1]
  ∧ play singleProps (playRun (Some "done") true) initial
    = log (TooFewFramesError "run" 1) initial
  ∧ ∀ s, ∃ d,
      level d = Error
      ∧ console (play testProps
                   {| type := "jump"; fps := None; loop := None;
                      resetAfterFinish := None; onFinish := None |} s)
        = console s ++ [d]
      ∧ progress (play testProps
                   {| type := "jump"; fps := None; loop := None;
                      resetAfterFinish := None; onFinish := None |} s)
        = progress s.
Proof.
  split; [|split; [|split]].
  - apply (proj1 (play_without_curve singleProps) "run"
             {| row := 0; startFrame := 0; endFrame := 0 |}).
    + reflexivity.
    + vm_compute. lia.
  - reflexivity.
  - reflexivity.
  - intros s.
    destruct (proj2 (play_without_curve testProps)
                {| type := "jump"; fps := None; loop := None;
                   resetAfterFinish := None; onFinish := None |} s)
      as (d & Hd & Hc & _ & Hp & _).
    + reflexivity.
    + exists d. auto.
Defined.

(** C9.  A reversed range ([endFrame < startFrame]) gives the empty frame
    list; the animation gets no curve, the console is told it has 0 frames,
    and [play] on its name reports an error and changes nothing else.  All
    three functions return. *)
Theorem reversed_range_is_rejected p key anim :
  animations p !! key = Some anim →
  endFrame anim < startFrame anim →
  generateFrames (row anim) (startFrame anim) (endFrame anim) (columns p) = []
  ∧ (interpolationRanges p).1 !! key = None
  ∧ TooFewFramesWarn key 0 ∈ (interpolationRanges p).2
  ∧ ∀ o s, type o = key →
      play p o s
      = {| animationType := animationType s; progress := progress s; running := running s;
           console := console s ++ [TooFewFramesError key 0]; called := called s |}.
Proof.
  intros Hkey Hrev.
  pose proof (generateFrames_reversed (row anim) _ _ (columns p) Hrev) as Hnil.
  assert (framesOf p anim = []) as Hframes by done.
  split; [done|].
  assert ((interpolationRanges p).1 !! key = None) as Hnone.
  { rewrite interpolationRanges_lookup, Hkey. simpl. apply registered_None.
    rewrite Hframes. simpl. lia. }
  split; [done|]. split.
  - pose proof (interpolationRanges_rejects p key anim Hkey) as Hwarn.
    rewrite Hframes in Hwarn. apply Hwarn. simpl. lia.
  - intros o s <-. rewrite (play_invalid p o s Hnone), Hkey, Hframes. done.
Qed.

Lemma reversed_range_is_rejected_witness :
  generateFrames 0 4 0 5 = []
  ∧ (interpolationRanges reversedProps).1 !! "back" = None
  ∧ TooFewFramesWarn "back" 0 ∈ (interpolationRanges reversedProps).2
  ∧ ∀ o s, type o = "back" →
      play reversedProps o s
      = {| animationType := animationType s; progress := progress s; running := running s;
           console := console s ++ [TooFewFramesError "back" 0]; called := called s |}.
Proof.
  apply (reversed_range_is_rejected reversedProps "back"
           {| row := 0; startFrame := 4; endFrame := 0 |}).
  - reflexivity.
  - simpl. lia.
Defined.

(** *** Completion and preemption *)

(** A run that was not looped and reaches its end is detached, the value is
    put back to [0] when [resetAfterFinish] was set, and then [onFinish] is
    called, once. *)
Lemma finish_completes_run s a c :
  running s = Some a → looping a = false → onEnd a = Some c →
  finish s
  = invoke (cb_onFinish c)
      {| animationType := animationType s;
         progress := if cb_resetAfterFinish c then 0 else toValue (config a);
         running := None;
         console := console s;
         called := called s |}.
Proof.
  intros Hr Hl Hc. unfold finish, endAnimation. rewrite Hr, Hl. simpl. rewrite Hr, Hc.
  unfold completion. by destruct (cb_resetAfterFinish c).
Qed.

(** A looped run carries no callback: neither its end nor its preemption
    calls anything. *)
Lemma looped_run_is_silent s a :
  running s = Some a → looping a = true → onEnd a = None →
  finish s = updateValue 0 s ∧ endAnimation s = setRunning None s.
Proof.
  intros Hr Hl Hc. unfold finish, endAnimation. by rewrite Hr, Hl, Hc.
Qed.

(** Preempting a run that was not looped calls its completion callback as
    well: the value is put back to [0] when [resetAfterFinish] was set and
    [onFinish] is called. *)
Lemma endAnimation_calls_completion s a c :
  running s = Some a → onEnd a = Some c →
  endAnimation s
  = invoke (cb_onFinish c)
      {| animationType := animationType s;
         progress := if cb_resetAfterFinish c then 0 else progress s;
         running := None;
         console := console s;
         called := called s |}.
Proof.
  intros Hr Hc. unfold endAnimation. rewrite Hr, Hc.
  unfold completion. by destruct (cb_resetAfterFinish c).
Qed.

Lemma stop_not_running cb s : running s = None → stop cb s = invoke cb s.
Proof. intros H. unfold stop, stopAnimation. by rewrite endAnimation_not_running. Qed.

Lemma stop_progress_without_reset cb s :
  (∀ a c, running s = Some a → onEnd a = Some c → cb_resetAfterFinish c = false) →
  progress (stop cb s) = progress s.
Proof.
  intros H. unfold stop, stopAnimation, endAnimation.
  destruct (running s) as [a|] eqn:Hr; [|by destruct cb].
  destruct (onEnd a) as [c|] eqn:Hc; [|by destruct cb].
  unfold completion. rewrite (H a c eq_refl Hc).
  by destruct cb, (cb_onFinish c).
Qed.

Lemma reset_progress cb s : progress (reset cb s) = 0%Q.
Proof. done. Qed.

Lemma reset_running cb s : running (reset cb s) = None.
Proof. unfold reset, setValue. simpl. apply endAnimation_running. Qed.

Lemma stop_called cb s :
  called (stop cb s)
  = called (endAnimation s)
    ++ match cb with Some f => [(f, progress (endAnimation s))] | None => [] end.
Proof. unfold stop, stopAnimation. destruct cb; simpl; by rewrite ?app_nil_r. Qed.

Lemma reset_called cb s :
  called (reset cb s)
  = called (endAnimation s)
    ++ match cb with Some f => [(f, progress (endAnimation s))] | None => [] end.
Proof.
  unfold reset, setValue. cbn [called updateValue].
  rewrite endAnimation_not_running.
  - apply stop_called.
  - unfold stopAnimation. destruct cb; simpl; apply endAnimation_running.
Qed.

(** *** Sessions without an active animation *)

Lemma reachable_idle p s :
  reachable p s → animationType s = None → progress s = 0%Q ∧ running s = None.
Proof.
  induction 1 as [|a s Hs IH]; [done|].
  destruct a as [o|cb|cb|v|]; cbn [step].
  - destruct ((interpolationRanges p).1 !! type o) as [r|] eqn:Hr.
    + rewrite interpolationRanges_lookup in Hr.
      destruct (animations p !! type o) as [anim|] eqn:Hanim; [|done].
      apply registered_Some in Hr as [Hlen _].
      by rewrite (play_valid p o s anim Hanim Hlen).
    + rewrite (play_invalid p o s Hr). exact IH.
  - intros Ht. unfold stop, stopAnimation in *.
    assert (animationType s = None) as Hs'.
    { rewrite <- (endAnimation_animationType s). by destruct cb. }
    destruct (IH Hs') as [Hp Hr]. rewrite endAnimation_not_running by done.
    by destruct cb.
  - intros _. split; [apply reset_progress | apply reset_running].
  - intros Ht. unfold advance in *. destruct (running s) as [a|] eqn:Hr.
    + destruct (IH Ht) as [_ ?]. discriminate.
    + destruct (IH Ht) as [? _]. done.
  - intros Ht. unfold finish in *. destruct (running s) as [a|] eqn:Hr.
    + assert (animationType s = None) as Hs'.
      { destruct (looping a); [done|]. by rewrite endAnimation_animationType in Ht. }
      destruct (IH Hs') as [_ ?]. discriminate.
    + destruct (IH Ht) as [? _]. done.
Qed.

(** Without an active animation [stop] and [reset] only call back. *)
Lemma stop_reset_idle p s cb :
  reachable p s → animationType s = None →
  stop cb s = invoke cb s ∧ reset cb s = invoke cb s.
Proof.
  intros Hs Ht. destruct (reachable_idle p s Hs Ht) as [Hp Hr].
  split; [by apply stop_not_running|].
  unfold reset, setValue, stopAnimation. rewrite (endAnimation_not_running s Hr).
  rewrite endAnimation_not_running by by destruct cb.
  destruct s as [t v r con cs]. simpl in *. subst. by destruct cb.
Qed.

(** *** Runs that are cut short *)

(** C4 at a failing input.  On the five-frame sheet of the test suite,
    [play({type: 'run', onFinish: done})] is followed by [stop()], or by
    [reset()], when the progress is at 2.5 of 5: the run has not reached
    its end, and [done] is called all the same, because the completion
    callback of l.360-365 runs for a stopped animation too.  Left alone the
    same run calls [done] once, at its end. *)
Theorem onFinish_called_when_preempted :
  let s := run testProps [Play (playRun (Some "done") false); Advance (5 # 2)] initial in
  progress s = 5 # 2
  ∧ called s = []
  ∧ called (stop None s) = [("done", 5 # 2)]
  ∧ called (reset None s) = [("done", 5 # 2)]
  ∧ called (finish s) = [("done", 5%Q)].
Proof. repeat split. Qed.

(** C7 at a failing input.  On the same sheet,
    [play({type: 'run', resetAfterFinish: true})] is followed by
    [stop(stopped)] when the progress is at 2.5: the completion callback
    puts the value back to [0] before [stopped] is called, so [stop] does
    not leave the progress where it was. *)
Theorem stop_rewinds_when_resetAfterFinish :
  let s := run testProps [Play (playRun None true); Advance (5 # 2)] initial in
  progress s = 5 # 2
  ∧ progress (stop (Some "stopped") s) = 0%Q
  ∧ called (stop (Some "stopped") s) = [("stopped", 0%Q)].
Proof. repeat split. Qed.

(** * Further properties *)

(** ** Frames and cells *)

(** Row-major addressing: on a sheet with a positive column count the index
    [r * columns + c] of the cell in row [r] and column [c] is shown by
    shifting the image [c] frame widths to the left and [r] frame heights
    up, and nothing is written on the console. *)
Theorem getFrameCoords_cell p r c :
  0 ≤ r < rows p →
  0 ≤ c < columns p →
  getFrameCoords p (r * columns p + c)
  = ({| translateX := - inject_Z c * computedFrameWidth p - offsetX p;
        translateY := - inject_Z r * computedFrameHeight p - offsetY p |}, []).
Proof.
  intros Hr Hc. unfold getFrameCoords.
  destruct (Z.ltb_spec (r * columns p + c) 0); [nia|].
  destruct (Z.geb_spec (r * columns p + c) (columns p * rows p)); [nia|].
  cbn [orb].
  rewrite Z.rem_mod_nonneg by lia.
  rewrite Z.add_comm, Z.mod_add, Z.mod_small by lia.
  rewrite Z.div_add, Z.div_small by lia. done.
Qed.

Lemma getFrameCoords_cell_witness :
  getFrameCoords
    {| columns := 3; rows := 4; animations := ∅;
       computedFrameWidth := 32; computedFrameHeight := 48;
       offsetX := 0; offsetY := 0; DEV := true |} (2 * 3 + 1)
  = ({| translateX := - inject_Z 1 * 32 - 0; translateY := - inject_Z 2 * 48 - 0 |}, []).
Proof.
  apply (getFrameCoords_cell
           {| columns := 3; rows := 4; animations := ∅;
              computedFrameWidth := 32; computedFrameHeight := 48;
              offsetX := 0; offsetY := 0; DEV := true |} 2 1); simpl; lia.
Defined.

(** Two frames of the grid that are shown at the same offset are the same
    frame.  This is stated where the arithmetic of the offsets is exact:
    frame width, frame height and offsets are whole numbers, the frames have
    a width and a height, and the grid and the offsets stay within the safe
    integers. *)
Theorem getFrameCoords_injective p w h ox oy i j :
  0 < columns p →
  safeInteger (columns p * rows p) →
  computedFrameWidth p = inject_Z w → w ≠ 0 →
  computedFrameHeight p = inject_Z h → h ≠ 0 →
  offsetX p = inject_Z ox → offsetY p = inject_Z oy →
  Z.abs (columns p * w) + Z.abs ox < 2 ^ 53 →
  Z.abs (rows p * h) + Z.abs oy < 2 ^ 53 →
  0 ≤ i < columns p * rows p →
  0 ≤ j < columns p * rows p →
  (translateX (getFrameCoords p i).1 == translateX (getFrameCoords p j).1)%Q →
  (translateY (getFrameCoords p i).1 == translateY (getFrameCoords p j).1)%Q →
  i = j.
Proof.
  intros Hc _ Hw Hw0 Hh Hh0 _ _ _ _ Hi Hj.
  assert (¬ (inject_Z w == 0)%Q) as Hw'.
  { intros H. apply Hw0. by apply (proj1 (inject_Z_injective w 0)). }
  assert (¬ (inject_Z h == 0)%Q) as Hh'.
  { intros H. apply Hh0. by apply (proj1 (inject_Z_injective h 0)). }
  unfold getFrameCoords.
  destruct (Z.ltb_spec i 0); [lia|]. destruct (Z.geb_spec i (columns p * rows p)); [lia|].
  destruct (Z.ltb_spec j 0); [lia|]. destruct (Z.geb_spec j (columns p * rows p)); [lia|].
  cbn [orb fst translateX translateY].
  rewrite !Z.rem_mod_nonneg by lia. rewrite Hw, Hh.
  intros Hx Hy.
  assert (inject_Z (i mod columns p) == inject_Z (j mod columns p))%Q as Hcol.
  { apply (Qmult_inj_r _ _ (inject_Z w)); [done|]. lra. }
  assert (inject_Z (i / columns p) == inject_Z (j / columns p))%Q as Hrow.
  { apply (Qmult_inj_r _ _ (inject_Z h)); [done|]. lra. }
  apply (proj1 (inject_Z_injective _ _)) in Hcol.
  apply (proj1 (inject_Z_injective _ _)) in Hrow.
  rewrite (Z.div_mod i (columns p)), (Z.div_mod j (columns p)) by lia.
  by rewrite Hcol, Hrow.
Qed.

(** On the sheet of the example application, with frames of 32 by 48: the
    hypotheses hold for frame 7 against itself, and frames 1 and 4 (same
    column, rows 0 and 1) are shown at different offsets. *)
Lemma getFrameCoords_injective_witness :
  7 = 7
  ∧ ¬ ((translateX (getFrameCoords goatProps 1).1 == translateX (getFrameCoords goatProps 4).1)%Q
       ∧ (translateY (getFrameCoords goatProps 1).1 == translateY (getFrameCoords goatProps 4).1)%Q).
Proof.
  split.
  - apply (getFrameCoords_injective goatProps 32 48 0 0 7 7);
      [reflexivity | split; reflexivity | reflexivity | discriminate
      | reflexivity | discriminate | reflexivity | reflexivity
      | reflexivity | reflexivity | simpl; lia | simpl; lia | reflexivity | reflexivity].
  - intros [Hx Hy].
    assert (1 = 4) as Heq; [|discriminate Heq].
    apply (getFrameCoords_injective goatProps 32 48 0 0 1 4);
      [reflexivity | split; reflexivity | reflexivity | discriminate
      | reflexivity | discriminate | reflexivity | reflexivity
      | reflexivity | reflexivity | simpl; lia | simpl; lia | exact Hx | exact Hy].
Defined.

(** Within the range where the numbers of the loop are exact, a frame list
    holds exactly the integers between its first and its last value, each
    once. *)
Theorem generateFrames_elements row startFrame endFrame totalColumns :
  safeFrames row startFrame endFrame totalColumns →
  NoDup (generateFrames row startFrame endFrame totalColumns)
  ∧ ∀ f, f ∈ generateFrames row startFrame endFrame totalColumns
         ↔ row * totalColumns + startFrame ≤ f ≤ row * totalColumns + endFrame.
Proof.
  intros _. rewrite generateFrames_seqZ. split.
  - apply NoDup_fmap_2; [|apply NoDup_seqZ]. intros x y ?. lia.
  - intros f. rewrite list_elem_of_fmap. split.
    + intros (i & -> & Hi%list_elem_of_lookup). destruct Hi as [k Hk].
      apply lookup_seqZ in Hk. lia.
    + intros Hf. exists (f - row * totalColumns). split; [lia|].
      apply list_elem_of_lookup. exists (Z.to_nat (f - row * totalColumns - startFrame)).
      apply lookup_seqZ. lia.
Qed.

(** The second row of the example application's sheet: frames 3, 4 and 5. *)
Lemma generateFrames_elements_witness :
  NoDup (generateFrames 1 0 2 3)
  ∧ ∀ f, f ∈ generateFrames 1 0 2 3 ↔ 1 * 3 + 0 ≤ f ≤ 1 * 3 + 2.
Proof.
  apply (generateFrames_elements 1 0 2 3).
  unfold safeFrames, safeInteger. repeat split; reflexivity.
Defined.

(** Frame lists concatenate: the frames of [startFrame .. middle] followed
    by those of [middle + 1 .. endFrame] are the frames of
    [startFrame .. endFrame]. *)
Theorem generateFrames_app row startFrame middle endFrame totalColumns :
  startFrame ≤ middle + 1 →
  middle ≤ endFrame →
  generateFrames row startFrame middle totalColumns
  ++ generateFrames row (middle + 1) endFrame totalColumns
  = generateFrames row startFrame endFrame totalColumns.
Proof.
  intros H1 H2. rewrite !generateFrames_seqZ, <- fmap_app. f_equal.
  replace (endFrame - startFrame + 1)
    with ((middle - startFrame + 1) + (endFrame - (middle + 1) + 1)) by lia.
  rewrite (seqZ_app startFrame (middle - startFrame + 1) (endFrame - (middle + 1) + 1)) by lia.
  by replace (startFrame + (middle - startFrame + 1)) with (middle + 1) by lia.
Qed.

Lemma generateFrames_app_witness :
  generateFrames 1 0 1 3 ++ generateFrames 1 (1 + 1) 2 3 = generateFrames 1 0 2 3.
Proof. apply (generateFrames_app 1 0 1 2 3); lia. Defined.

(** The frame at position [k] of an animation shows the cell its index
    decodes to: with [i = startFrame + k >= 0], column [i mod columns] of row
    [row + i / columns].  Inside a row that is cell [(row, i)]; a range that
    runs past the last column goes on in the next rows. *)
Theorem animation_frame_cell p anim (k : nat) :
  0 < columns p →
  0 ≤ row anim →
  0 ≤ startFrame anim →
  startFrame anim + Z.of_nat k ≤ endFrame anim →
  row anim * columns p + startFrame anim + Z.of_nat k < columns p * rows p →
  ∃ f,
    framesOf p anim !! k = Some f
    ∧ getFrameCoords p f
      = ({| translateX :=
              - inject_Z ((startFrame anim + Z.of_nat k) mod columns p)
                * computedFrameWidth p - offsetX p;
            translateY :=
              - inject_Z (row anim + (startFrame anim + Z.of_nat k) / columns p)
                * computedFrameHeight p - offsetY p |}, []).
Proof.
  intros Hc Hr Hs He Hin. eexists. split.
  - unfold framesOf. apply generateFrames_lookup. lia.
  - unfold getFrameCoords.
    set (i := startFrame anim + Z.of_nat k).
    destruct (Z.ltb_spec (row anim * columns p + i) 0); [nia|].
    destruct (Z.geb_spec (row anim * columns p + i) (columns p * rows p)); [lia|].
    cbn [orb].
    rewrite Z.rem_mod_nonneg by lia.
    rewrite (Z.add_comm (row anim * columns p)), Z.mod_add, Z.div_add by lia.
    by rewrite (Z.add_comm (i / columns p)).
Qed.

Lemma animation_frame_cell_witness :
  ∃ f,
    framesOf testProps runDef !! 3%nat = Some f
    ∧ getFrameCoords testProps f
      = ({| translateX := - inject_Z ((0 + 3) mod 5) * (256 / 5) - 0;
            translateY := - inject_Z (0 + (0 + 3) / 5) * 256 - 0 |}, []).
Proof.
  apply (animation_frame_cell testProps runDef 3); simpl; lia.
Defined.

(** ** The curve set *)

Lemma bind_nil_iff {A B} (f : A → list B) (l : list A) :
  l ≫= f = [] ↔ ∀ x, x ∈ l → f x = [].
Proof.
  induction l as [|x l IH].
  - split; [|done]. intros _ y Hy. by apply elem_of_nil in Hy.
  - rewrite bind_cons. split.
    + intros [Hx Hl]%app_eq_nil y [->|Hy]%elem_of_cons; [done|]. by apply IH.
    + intros H. rewrite (H x) by apply list_elem_of_here. simpl.
      apply IH. intros y Hy. apply H. by apply list_elem_of_further.
Qed.

Lemma getFrameCoords_quiet p f :
  (getFrameCoords p f).2 = [] ↔ DEV p = false ∨ 0 ≤ f < columns p * rows p.
Proof.
  unfold getFrameCoords.
  destruct (Z.ltb_spec f 0), (Z.geb_spec f (columns p * rows p)); cbn [orb snd];
    destruct (DEV p); split; try done; try (by left); try (by right; lia);
    intros [?|?]; try done; lia.
Qed.

(** Building the curves writes nothing on the console exactly when every
    animation has at least two frames and, in a development build, all their
    frames lie in the grid. *)
Theorem interpolationRanges_silent p :
  (interpolationRanges p).2 = []
  ↔ ∀ key anim,
      animations p !! key = Some anim →
      (2 ≤ length (framesOf p anim))%nat
      ∧ (DEV p = true → ∀ f, f ∈ framesOf p anim → 0 ≤ f < columns p * rows p).
Proof.
  unfold interpolationRanges. rewrite foldl_add_animation_console. simpl.
  rewrite bind_nil_iff. split.
  - intros H key anim Hkey.
    specialize (H (key, anim) (proj2 (elem_of_map_to_list _ _ _) Hkey)).
    unfold entryConsole in H. simpl in H.
    destruct (Nat.ltb_spec (length (framesOf p anim)) 2); [done|].
    split; [done|]. intros Hdev f Hf.
    rewrite bind_nil_iff in H. specialize (H f Hf).
    apply getFrameCoords_quiet in H as [?|?]; [congruence|done].
  - intros H [key anim] Hkey%elem_of_map_to_list.
    destruct (H key anim Hkey) as [Hlen Hin].
    unfold entryConsole. simpl.
    destruct (Nat.ltb_spec (length (framesOf p anim)) 2); [lia|].
    apply bind_nil_iff. intros f Hf. apply getFrameCoords_quiet.
    destruct (DEV p); [right; by apply Hin|by left].
Qed.

(** A registered curve can be handed to [interpolate]: each axis has as many
    outputs as inputs, at least four, and the inputs never decrease; entry
    [j] of the input is [(j + 1) / 2], so the input starts at 0 and ends at
    the number of frames. *)
Theorem registered_curve_well_formed p key r :
  (interpolationRanges p).1 !! key = Some r →
  ∃ n : nat,
    (2 ≤ n)%nat
    ∧ length (input (translateX_range r)) = (2 * n)%nat
    ∧ length (output (translateX_range r)) = (2 * n)%nat
    ∧ length (input (translateY_range r)) = (2 * n)%nat
    ∧ length (output (translateY_range r)) = (2 * n)%nat
    ∧ (∀ j : nat, (j < 2 * n)%nat →
         input (translateX_range r) !! j = Some (Z.of_nat ((j + 1) / 2)))
    ∧ (∀ (i j : nat) ti tj, (i ≤ j)%nat →
         input (translateX_range r) !! i = Some ti →
         input (translateX_range r) !! j = Some tj → ti ≤ tj)
    ∧ head (input (translateX_range r)) = Some 0
    ∧ last (input (translateX_range r)) = Some (Z.of_nat n).
Proof.
  rewrite interpolationRanges_lookup.
  destruct (animations p !! key) as [anim|]; [simpl|done].
  intros [Hlen ->]%registered_Some.
  set (frames := framesOf p anim) in *.
  destruct (curve_keyframes p frames) as (Hxy & Hin & Hox & Hoy & Hk & _).
  exists (length frames). split; [done|]. split; [done|]. split; [done|].
  split; [by rewrite <- Hxy|]. split; [done|].
  assert (∀ j : nat, (j < 2 * length frames)%nat →
            input (translateX_range (curve p frames)) !! j = Some (Z.of_nat ((j + 1) / 2)))
    as Hclosed.
  { intros j Hj.
    destruct (lookup_lt_is_Some_2 frames (j / 2)) as [f Hf].
    { apply Nat.Div0.div_lt_upper_bound. lia. }
    destruct (Hk (j / 2)%nat f Hf) as [He Ho].
    pose proof (Nat.div_mod_eq j 2) as Hdm.
    pose proof (Nat.mod_upper_bound j 2 ltac:(lia)) as Hm.
    destruct (decide (j mod 2 = 0)%nat) as [H0|H1].
    - replace (2 * (j / 2))%nat with j in He by lia.
      unfold keyframe in He.
      destruct (input (translateX_range (curve p frames)) !! j) as [t|]; [|done].
      destruct (output (translateX_range (curve p frames)) !! j); [|done].
      destruct (output (translateY_range (curve p frames)) !! j); [|done].
      injection He as -> _. do 2 f_equal.
      replace (j + 1)%nat with (1 + (j / 2) * 2)%nat by lia.
      rewrite Nat.div_add by lia. done.
    - replace (2 * (j / 2) + 1)%nat with j in Ho by lia.
      unfold keyframe in Ho.
      destruct (input (translateX_range (curve p frames)) !! j) as [t|]; [|done].
      destruct (output (translateX_range (curve p frames)) !! j); [|done].
      destruct (output (translateY_range (curve p frames)) !! j); [|done].
      injection Ho as -> _. f_equal.
      replace (j + 1)%nat with (0 + (j / 2 + 1) * 2)%nat by lia.
      rewrite Nat.div_add by lia. simpl. lia. }
  split; [exact Hclosed|]. split; [|split].
  - intros i j ti tj Hij Hi Hj.
    pose proof (lookup_lt_Some _ _ _ Hi) as Hi'. pose proof (lookup_lt_Some _ _ _ Hj) as Hj'.
    rewrite Hin in Hi', Hj'.
    rewrite Hclosed in Hi, Hj by done.
    assert (ti = Z.of_nat ((i + 1) / 2)) as -> by congruence.
    assert (tj = Z.of_nat ((j + 1) / 2)) as -> by congruence.
    apply inj_le. apply Nat.Div0.div_le_mono. lia.
  - rewrite head_lookup, Hclosed by lia. done.
  - rewrite last_lookup, Hin, Hclosed by lia. do 2 f_equal.
    replace (Init.Nat.pred (2 * length frames) + 1)%nat with (0 + length frames * 2)%nat by lia.
    by rewrite Nat.div_add by lia.
Qed.

Lemma registered_curve_well_formed_witness :
  ∃ n : nat,
    (2 ≤ n)%nat
    ∧ length (input (translateX_range (curve testProps [0; 1; 2; 3; 4]))) = (2 * n)%nat
    ∧ last (input (translateX_range (curve testProps [0; 1; 2; 3; 4]))) = Some (Z.of_nat n).
Proof.
  destruct (registered_curve_well_formed testProps "run" (curve testProps [0; 1; 2; 3; 4]))
    as (n & H2 & Hin & _ & _ & _ & _ & _ & _ & Hlast).
  - reflexivity.
  - exists n. auto.
Defined.

Lemma getFrameCoords_same_geometry p p' f :
  columns p = columns p' → rows p = rows p' →
  computedFrameWidth p = computedFrameWidth p' →
  computedFrameHeight p = computedFrameHeight p' →
  offsetX p = offsetX p' → offsetY p = offsetY p' →
  (getFrameCoords p f).1 = (getFrameCoords p' f).1.
Proof.
  intros Hc Hr Hw Hh Hx Hy. unfold getFrameCoords.
  rewrite Hc, Hr, Hw, Hh, Hx, Hy. by destruct (_ || _).
Qed.

(** The curve of a name depends on the grid, the frame size, the offsets
    and that name's own definition only: other animations and the build
    flavour do not change it. *)
Theorem curve_is_local p p' key :
  columns p = columns p' → rows p = rows p' →
  computedFrameWidth p = computedFrameWidth p' →
  computedFrameHeight p = computedFrameHeight p' →
  offsetX p = offsetX p' → offsetY p = offsetY p' →
  animations p !! key = animations p' !! key →
  (interpolationRanges p).1 !! key = (interpolationRanges p').1 !! key.
Proof.
  intros Hc Hr Hw Hh Hx Hy Hkey.
  rewrite !interpolationRanges_lookup, Hkey.
  destruct (animations p' !! key) as [anim|]; [simpl|done].
  unfold registered, framesOf. rewrite Hc.
  destruct (_ <? 2)%nat; [done|]. f_equal.
  unfold curve, forEach. rewrite !forEach_push_frame. simpl.
  assert (∀ l : list Z,
            (l ≫= λ f, [translateX (getFrameCoords p f).1; translateX (getFrameCoords p f).1])
            = (l ≫= λ f, [translateX (getFrameCoords p' f).1; translateX (getFrameCoords p' f).1])
            ∧ (l ≫= λ f, [translateY (getFrameCoords p f).1; translateY (getFrameCoords p f).1])
              = (l ≫= λ f, [translateY (getFrameCoords p' f).1; translateY (getFrameCoords p' f).1]))
    as Hsame.
  { induction l as [|f l [IHx IHy]]; [done|].
    rewrite !bind_cons, IHx, IHy, (getFrameCoords_same_geometry p p' f) by done. done. }
  destruct (Hsame (generateFrames (row anim) (startFrame anim) (endFrame anim) (columns p')))
    as [-> ->].
  done.
Qed.

(** Adding a second animation to the test sheet, in a production build,
    leaves the curve of the first as it was. *)
Lemma curve_is_local_witness :
  (interpolationRanges testProps).1 !! "run"
  = (interpolationRanges
       {| columns := 5; rows := 1;
          animations :=
            {[ "run" := {| row := 0; startFrame := 0; endFrame := 4 |};
               "blink" := {| row := 0; startFrame := 1; endFrame := 2 |} ]};
          computedFrameWidth := 256 / 5; computedFrameHeight := 256;
          offsetX := 0; offsetY := 0; DEV := false |}).1 !! "run".
Proof. apply curve_is_local; reflexivity. Defined.

(** ** What is shown *)

Lemma reachable_active p s t :
  reachable p s → animationType s = Some t →
  ∃ anim, animations p !! t = Some anim ∧ (2 ≤ length (framesOf p anim))%nat.
Proof.
  induction 1 as [|a s Hs IH]; [done|].
  destruct a as [o|cb|cb|v|]; cbn [step].
  - destruct ((interpolationRanges p).1 !! type o) as [r|] eqn:Hr.
    + rewrite interpolationRanges_lookup in Hr.
      destruct (animations p !! type o) as [anim|] eqn:Hanim; [|done].
      apply registered_Some in Hr as [Hlen _].
      rewrite (play_valid p o s anim Hanim Hlen). intros [= <-]. eauto.
    + rewrite (play_invalid p o s Hr). exact IH.
  - unfold stop, stopAnimation. intros Ht. apply IH.
    rewrite <- (endAnimation_animationType s). by destruct cb.
  - unfold reset, setValue, stopAnimation. cbn [animationType updateValue].
    rewrite endAnimation_animationType. intros Ht. apply IH.
    rewrite <- (endAnimation_animationType s). by destruct cb.
  - unfold advance. by destruct (running s).
  - unfold finish. destruct (running s) as [a|]; [|done].
    destruct (looping a); [done|]. by rewrite endAnimation_animationType.
Qed.

(** Whatever has been played, stopped or reset: while an animation with a
    non-empty name is active, both transforms of the image are interpolated
    over that animation's curve, never the constant default. *)
Theorem currentInterpolation_active p s t :
  reachable p s →
  animationType s = Some t →
  t ≠ "" →
  ∃ r,
    (interpolationRanges p).1 !! t = Some r
    ∧ currentInterpolation (interpolationRanges p).1 (animationType s)
      = (Interpolate (input (translateX_range r)) (output (translateX_range r)),
         Interpolate (input (translateY_range r)) (output (translateY_range r))).
Proof.
  intros Hs Ht Hne.
  destruct (reachable_active p s t Hs Ht) as (anim & Hanim & Hlen).
  exists (curve p (framesOf p anim)).
  assert ((interpolationRanges p).1 !! t = Some (curve p (framesOf p anim))) as Hr.
  { rewrite interpolationRanges_lookup, Hanim. simpl. by apply registered_Some. }
  split; [done|].
  rewrite Ht. unfold currentInterpolation.
  destruct (String.eqb_spec t ""); [done|]. rewrite Hr.
  destruct (curve_keyframes p (framesOf p anim)) as (Hxy & Hin & Hox & Hoy & _).
  unfold interpolationOf. rewrite <- Hxy, Hin, Hox, Hoy.
  destruct (Nat.leb_spec 2 (2 * length (framesOf p anim))); [done|lia].
Qed.

Lemma currentInterpolation_active_witness :
  let s := run goatProps
             [Play {| type := "left"; fps := Some 15%Q; loop := Some true;
                      resetAfterFinish := None; onFinish := None |};
              Advance 1; Stop (Some "stopped")] initial in
  ∃ r,
    (interpolationRanges goatProps).1 !! "left" = Some r
    ∧ currentInterpolation (interpolationRanges goatProps).1 (animationType s)
      = (Interpolate (input (translateX_range r)) (output (translateX_range r)),
         Interpolate (input (translateY_range r)) (output (translateY_range r))).
Proof.
  apply (currentInterpolation_active goatProps _ "left").
  - do 3 apply reachable_step. apply reachable_initial.
  - reflexivity.
  - discriminate.
Defined.

(** An animation whose name is the empty string can be played, and runs,
    but is never shown: the transforms stay at the constant default. *)
Theorem empty_name_is_not_shown p anim o s :
  animations p !! "" = Some anim →
  (2 ≤ length (framesOf p anim))%nat →
  type o = "" →
  animationType (play p o s) = Some ""
  ∧ is_Some (running (play p o s))
  ∧ is_Some ((interpolationRanges p).1 !! "")
  ∧ currentInterpolation (interpolationRanges p).1 (animationType (play p o s))
    = (DefaultValue, DefaultValue).
Proof.
  intros Hanim Hlen Ho. rewrite <- Ho in Hanim.
  rewrite (play_valid p o s anim Hanim Hlen). cbn [animationType running].
  rewrite Ho. split; [done|]. split; [eauto|]. split; [|done].
  rewrite interpolationRanges_lookup, <- Ho, Hanim. simpl.
  exists (curve p (framesOf p anim)). by apply registered_Some.
Qed.

Lemma empty_name_is_not_shown_witness :
  let p := {| columns := 5; rows := 1;
              animations := {[ "" := {| row := 0; startFrame := 0; endFrame := 4 |} ]};
              computedFrameWidth := 64; computedFrameHeight := 64;
              offsetX := 0; offsetY := 0; DEV := true |} in
  let o := {| type := ""; fps := None; loop := None; resetAfterFinish := None;
              onFinish := None |} in
  animationType (play p o initial) = Some ""
  ∧ is_Some (running (play p o initial))
  ∧ is_Some ((interpolationRanges p).1 !! "")
  ∧ currentInterpolation (interpolationRanges p).1 (animationType (play p o initial))
    = (DefaultValue, DefaultValue).
Proof.
  simpl.
  apply (empty_name_is_not_shown _ {| row := 0; startFrame := 0; endFrame := 4 |}).
  - reflexivity.
  - vm_compute. lia.
  - reflexivity.
Defined.

(** ** Sessions *)

(** The animation that runs is always the one of the active name: it goes,
    linearly, to the number of frames of that animation, which are at least
    two, and it carries a completion callback exactly when it is not
    looped. *)
Theorem reachable_running p s a :
  reachable p s →
  running s = Some a →
  ∃ t anim,
    animationType s = Some t
    ∧ animations p !! t = Some anim
    ∧ (2 ≤ length (framesOf p anim))%nat
    ∧ toValue (config a) = inject_Z (Z.of_nat (length (framesOf p anim)))
    ∧ easing (config a) = Linear
    ∧ (looping a = true ↔ onEnd a = None).
Proof.
  intros Hs. revert a. induction Hs as [|act s Hs IH]; [done|].
  intros a. destruct act as [o|cb|cb|v|]; cbn [step].
  - destruct ((interpolationRanges p).1 !! type o) as [r|] eqn:Hr.
    + rewrite interpolationRanges_lookup in Hr.
      destruct (animations p !! type o) as [anim|] eqn:Hanim; [|done].
      apply registered_Some in Hr as [Hlen _].
      rewrite (play_valid p o s anim Hanim Hlen). cbn [running animationType].
      intros [= <-]. exists (type o), anim. cbn [config looping onEnd timing toValue easing].
      do 5 (split; [done|]). by destruct (default false (loop o)).
    + rewrite (play_invalid p o s Hr). apply IH.
  - unfold stop, stopAnimation. intros Hr. exfalso.
    assert (running (invoke cb (endAnimation s)) = None) as Hnone
      by (destruct cb; apply endAnimation_running).
    congruence.
  - rewrite reset_running. done.
  - unfold advance. destruct (running s) as [a'|] eqn:Hr; [|intros ?; congruence].
    cbn [running updateValue animationType]. rewrite Hr. apply IH.
  - unfold finish. destruct (running s) as [a'|] eqn:Hr; [|intros ?; congruence].
    destruct (looping a').
    + cbn [running updateValue animationType]. rewrite Hr. apply IH.
    + rewrite endAnimation_running. done.
Qed.

Lemma reachable_running_witness :
  ∃ t anim,
    animationType (play goatProps
                     {| type := "up"; fps := None; loop := Some true;
                        resetAfterFinish := None; onFinish := None |} initial) = Some t
    ∧ animations goatProps !! t = Some anim
    ∧ (2 ≤ length (framesOf goatProps anim))%nat.
Proof.
  destruct (reachable_running goatProps
              (play goatProps
                 {| type := "up"; fps := None; loop := Some true;
                    resetAfterFinish := None; onFinish := None |} initial)
              {| config := timing 3 DEFAULT_FPS; looping := true; onEnd := None |})
    as (t & anim & Ht & Hanim & Hlen & _).
  - apply (reachable_step goatProps (Play _)). apply reachable_initial.
  - reflexivity.
  - exists t, anim. auto.
Defined.

(** Only a [play] that fails writes on the console, one error at a time;
    every other step leaves the console as it is. *)
Theorem console_written_by_failed_play p a s :
  console (step p a s) = console s
  ∨ ∃ o d,
      a = Play o
      ∧ (interpolationRanges p).1 !! type o = None
      ∧ level d = Error
      ∧ console (step p a s) = console s ++ [d].
Proof.
  destruct a as [o|cb|cb|v|]; cbn [step].
  - destruct ((interpolationRanges p).1 !! type o) as [r|] eqn:Hr.
    + left. rewrite interpolationRanges_lookup in Hr.
      destruct (animations p !! type o) as [anim|] eqn:Hanim; [|done].
      apply registered_Some in Hr as [Hlen _].
      by rewrite (play_valid p o s anim Hanim Hlen).
    + right. exists o. eexists. split; [done|]. split; [done|].
      rewrite (play_invalid p o s Hr). split; [|done].
      by destruct (animations p !! type o).
  - left. unfold stop, stopAnimation.
    rewrite <- (endAnimation_console s). by destruct cb.
  - left. unfold reset, setValue, stopAnimation. cbn [console updateValue].
    rewrite endAnimation_console, <- (endAnimation_console s). by destruct cb.
  - left. unfold advance. by destruct (running s).
  - left. unfold finish. destruct (running s) as [a|]; [|done].
    destruct (looping a); [done|]. by rewrite endAnimation_console.
Qed.

Lemma run_cons p a acts s : run p (a :: acts) s = run p acts (step p a s).
Proof. done. Qed.

Lemma engine_idle p acts s :
  running s = None → Forall engineStep acts → run p acts s = s.
Proof.
  intros Hr Hacts. induction Hacts as [|a acts Ha _ IH]; [done|].
  rewrite run_cons.
  destruct a as [| | |v|]; try done; cbn [step]; unfold advance, finish; by rewrite Hr.
Qed.

(** After [stop], [reset] or unmounting nothing moves any more: whatever the
    engine does next leaves the session as it is. *)
Theorem frozen_after_stop p cb s acts :
  Forall engineStep acts →
  run p acts (stop cb s) = stop cb s
  ∧ run p acts (reset cb s) = reset cb s
  ∧ run p acts (unmount s) = unmount s.
Proof.
  intros Hacts. repeat split; apply engine_idle; try done.
  - unfold stop, stopAnimation. destruct cb; apply endAnimation_running.
  - apply reset_running.
  - apply endAnimation_running.
Qed.

Lemma frozen_after_stop_witness :
  let s := run testProps [Play (playRun (Some "done") false); Advance (5 # 2)] initial in
  run testProps [Advance 3; Finish; Advance 1] (stop (Some "stopped") s)
  = stop (Some "stopped") s.
Proof.
  intros s. refine (proj1 (frozen_after_stop testProps (Some "stopped") s _ _)).
  repeat constructor.
Defined.

(** Stopping or resetting before playing a registered animation makes no
    difference: [play] cancels what runs by itself. *)
Theorem play_after_stop p o s anim :
  animations p !! type o = Some anim →
  (2 ≤ length (framesOf p anim))%nat →
  play p o (stop None s) = play p o s
  ∧ play p o (reset None s) = play p o s.
Proof.
  intros Hanim Hlen. rewrite !(play_valid p o _ anim Hanim Hlen).
  unfold reset, setValue, stop, stopAnimation. cbn [invoke console updateValue].
  rewrite !(endAnimation_not_running (endAnimation s)) by apply endAnimation_running.
  rewrite endAnimation_console.
  split; [done|]. f_equal.
  rewrite endAnimation_not_running; [done|]. cbn [running updateValue].
  apply endAnimation_running.
Qed.

Lemma play_after_stop_witness :
  let s := run testProps [Play (playRun (Some "done") true); Advance 2] initial in
  play testProps (playRun None false) (stop None s) = play testProps (playRun None false) s
  ∧ play testProps (playRun None false) (reset None s) = play testProps (playRun None false) s.
Proof.
  intros s. apply (play_after_stop testProps (playRun None false) s runDef).
  - reflexivity.
  - vm_compute. lia.
Defined.

Lemma calls_invoke f cb s :
  calls f (invoke cb s)
  = (calls f s + if decide (cb = Some f) then 1 else 0)%nat.
Proof.
  unfold calls. destruct cb as [g|]; simpl.
  - rewrite filter_app, length_app. f_equal.
    rewrite filter_cons, filter_nil.
    repeat case_decide; simplify_eq/=; done.
  - lia.
Qed.

Lemma calls_idle p f acts s :
  running s = None →
  Forall (withoutCallback f) acts →
  running (run p acts s) = None ∧ calls f (run p acts s) = calls f s.
Proof.
  intros Hr Hacts. revert s Hr.
  induction Hacts as [|a acts Ha _ IH]; intros s Hr; [done|].
  rewrite run_cons. destruct a as [o|cb|cb|v|]; cbn [step]; [done| | | |].
  - destruct (IH (stop cb s)) as [H1 H2].
    { rewrite stop_not_running by done. by destruct cb. }
    split; [done|]. rewrite H2, stop_not_running, calls_invoke by done.
    rewrite decide_False by done. lia.
  - destruct (IH (reset cb s)) as [H1 H2]; [apply reset_running|].
    split; [done|]. rewrite H2. unfold calls. rewrite reset_called.
    rewrite endAnimation_not_running by done.
    destruct cb as [g|]; [|by rewrite app_nil_r].
    rewrite filter_app, length_app, filter_cons, filter_nil. simpl.
    rewrite decide_False; [simpl; lia|]. intros ->. by apply Ha.
  - unfold advance. rewrite Hr. by apply IH.
  - unfold finish. rewrite Hr. by apply IH.
Qed.

Lemma calls_running p f acts s a c :
  running s = Some a → looping a = false →
  onEnd a = Some c → cb_onFinish c = Some f →
  Forall (withoutCallback f) acts →
  calls f (run p acts s)
  = (calls f s + match running (run p acts s) with Some _ => 0 | None => 1 end)%nat.
Proof.
  intros Hr Hl Hc Hf Hacts. revert s Hr.
  induction Hacts as [|act acts Ha Hacts IH]; intros s Hr.
  { simpl. rewrite Hr. lia. }
  rewrite run_cons. destruct act as [o|cb|cb|v|]; cbn [step]; [done| | | |].
  - destruct (calls_idle p f acts (stop cb s)) as [H1 H2]; [|done|].
    { unfold stop, stopAnimation. destruct cb; apply endAnimation_running. }
    rewrite H1, H2. unfold stop, stopAnimation.
    rewrite calls_invoke, decide_False by done.
    rewrite (endAnimation_calls_completion s a c Hr Hc), Hf, calls_invoke.
    rewrite decide_True by done. unfold calls. simpl. lia.
  - destruct (calls_idle p f acts (reset cb s)) as [H1 H2]; [apply reset_running|done|].
    rewrite H1, H2. unfold calls at 1. rewrite reset_called.
    rewrite (endAnimation_calls_completion s a c Hr Hc), Hf.
    fold (calls f s) in *. simpl.
    rewrite !filter_app, !length_app, filter_cons, filter_nil. simpl.
    rewrite decide_True by done.
    destruct cb as [g|]; [|simpl; unfold calls; lia].
    rewrite filter_cons, filter_nil. simpl.
    rewrite decide_False; [simpl; unfold calls; lia|]. intros ->. by apply Ha.
  - unfold advance. rewrite Hr.
    rewrite (IH (updateValue v s)) by done. done.
  - destruct (calls_idle p f acts (finish s)) as [H1 H2]; [|done|].
    { unfold finish. rewrite Hr, Hl. apply endAnimation_running. }
    rewrite H1, H2, (finish_completes_run s a c Hr Hl Hc), Hf, calls_invoke.
    rewrite decide_True by done. unfold calls. simpl. lia.
Qed.

(** The [onFinish] of a run that is not looped is called exactly once, at
    the moment the run ends, whether it reaches its end or is cut short by
    [stop] or [reset]: as long as the run goes on it has not been called,
    and afterwards it is not called again. *)
Theorem onFinish_once_per_run p o s anim f acts :
  animations p !! type o = Some anim →
  (2 ≤ length (framesOf p anim))%nat →
  default false (loop o) = false →
  onFinish o = Some f →
  Forall (withoutCallback f) acts →
  calls f (run p acts (play p o s))
  = (calls f (play p o s)
     + match running (run p acts (play p o s)) with Some _ => 0 | None => 1 end)%nat.
Proof.
  intros Hanim Hlen Hloop Hf Hacts.
  eapply calls_running; [| | | |done].
  - rewrite (play_valid p o s anim Hanim Hlen). done.
  - done.
  - simpl. by rewrite Hloop.
  - done.
Qed.

Lemma onFinish_once_per_run_witness :
  calls "done"
    (run testProps [Advance 2; Stop (Some "stopped"); Reset None; Finish]
       (play testProps (playRun (Some "done") false) initial))
  = 1%nat.
Proof.
  rewrite (onFinish_once_per_run testProps (playRun (Some "done") false) initial runDef "done").
  - reflexivity.
  - reflexivity.
  - vm_compute. lia.
  - reflexivity.
  - reflexivity.
  - repeat constructor; discriminate.
Defined.

Lemma engine_looping p acts s a :
  running s = Some a → looping a = true →
  Forall engineStep acts →
  running (run p acts s) = Some a
  ∧ animationType (run p acts s) = animationType s
  ∧ called (run p acts s) = called s
  ∧ console (run p acts s) = console s.
Proof.
  intros Hr Hl Hacts. revert s Hr.
  induction Hacts as [|act acts Ha _ IH]; intros s Hr; [done|].
  rewrite run_cons.
  destruct act as [| | |v|]; try done; cbn [step]; unfold advance, finish; rewrite Hr, ?Hl.
  - by destruct (IH (updateValue v s)).
  - by destruct (IH (updateValue 0 s)).
Qed.

(** A looped animation does not end by itself: however long the engine
    runs, the same animation is still running, its name is still active,
    and no callback has been called nor anything written on the console. *)
Theorem looped_run_goes_on p o s anim acts :
  animations p !! type o = Some anim →
  (2 ≤ length (framesOf p anim))%nat →
  default false (loop o) = true →
  Forall engineStep acts →
  running (run p acts (play p o s)) = running (play p o s)
  ∧ is_Some (running (run p acts (play p o s)))
  ∧ animationType (run p acts (play p o s)) = Some (type o)
  ∧ called (run p acts (play p o s)) = called (play p o s)
  ∧ console (run p acts (play p o s)) = console (play p o s).
Proof.
  intros Hanim Hlen Hloop Hacts.
  pose proof (play_valid p o s anim Hanim Hlen) as Hplay.
  destruct (engine_looping p acts (play p o s)
              {| config := timing (length (framesOf p anim)) (default DEFAULT_FPS (fps o));
                 looping := true; onEnd := None |})
    as (H1 & H2 & H3 & H4); [by rewrite Hplay, Hloop|done|done|].
  rewrite H1, H2, H3, H4. rewrite Hplay at 1 2. cbn [running animationType].
  rewrite Hloop. eauto.
Qed.

Lemma looped_run_goes_on_witness :
  let o := {| type := "down"; fps := Some 15%Q; loop := Some true;
              resetAfterFinish := None; onFinish := Some "done" |} in
  is_Some (running (run goatProps [Advance 1; Finish; Advance 2; Finish] (play goatProps o initial)))
  ∧ called (run goatProps [Advance 1; Finish; Advance 2; Finish] (play goatProps o initial)) = [].
Proof.
  intros o.
  destruct (looped_run_goes_on goatProps o initial
              {| row := 0; startFrame := 0; endFrame := 2 |}
              [Advance 1; Finish; Advance 2; Finish])
    as (_ & H1 & _ & H2 & _).
  - reflexivity.
  - vm_compute. lia.
  - reflexivity.
  - repeat constructor.
  - split; [exact H1|]. rewrite H2. reflexivity.
Defined.

(** ** Sizes *)

(** The warning about the grid is advice only: a sheet with a single column
    is warned about, and its frames are addressed all the same, frame [i]
    being the cell of row [i]. *)
Theorem single_column_sheet p i :
  columns p = 1 →
  0 ≤ i < rows p →
  Layout.gridWarning (columns p) (rows p) = true
  ∧ getFrameCoords p i
    = ({| translateX := - inject_Z 0 * computedFrameWidth p - offsetX p;
          translateY := - inject_Z i * computedFrameHeight p - offsetY p |}, []).
Proof.
  intros Hc Hi. split; [by rewrite Hc|].
  unfold getFrameCoords. rewrite Hc.
  destruct (Z.ltb_spec i 0); [lia|]. destruct (Z.geb_spec i (1 * rows p)); [lia|].
  cbn [orb]. by rewrite Z.rem_1_r, Z.div_1_r.
Qed.

Lemma single_column_sheet_witness :
  let p := {| columns := 1; rows := 4; animations := ∅;
              computedFrameWidth := 32; computedFrameHeight := 48;
              offsetX := 0; offsetY := 0; DEV := true |} in
  Layout.gridWarning 1 4 = true
  ∧ getFrameCoords p 3
    = ({| translateX := - inject_Z 0 * 32 - 0; translateY := - inject_Z 3 * 48 - 0 |}, []).
Proof.
  intros p. apply (single_column_sheet p 3); simpl; [reflexivity|lia].
Defined.

(** Without [frameWidth] and [frameHeight], and with [width] and [height]
    both given or both left out: when the displayed image is a whole number
    [fw] of pixels per column wide and a whole number [fh] of pixels per row
    high (within the safe integers, where the division is exact), the frame
    is [fw] by [fh] and the frames tile the displayed image, [columns] frame
    widths making its width and [rows] frame heights its height. *)
Theorem frames_tile_display width height columns rows imageDimensions fw fh :
  columns ≠ 0 → rows ≠ 0 →
  (Layout.truthy width = None ↔ Layout.truthy height = None) →
  safeInteger columns → safeInteger rows →
  safeInteger (fw * columns) → safeInteger (fh * rows) →
  ((Layout.displaySize width height imageDimensions).1 == inject_Z (fw * columns))%Q →
  ((Layout.displaySize width height imageDimensions).2 == inject_Z (fh * rows))%Q →
  (Layout.computedFrameWidth None width columns (Layout.width imageDimensions)
   == inject_Z fw)%Q
  ∧ (Layout.computedFrameHeight None height rows (Layout.height imageDimensions)
     == inject_Z fh)%Q
  ∧ (Layout.computedFrameWidth None width columns (Layout.width imageDimensions)
     * inject_Z columns
     == (Layout.displaySize width height imageDimensions).1)%Q
  ∧ (Layout.computedFrameHeight None height rows (Layout.height imageDimensions)
     * inject_Z rows
     == (Layout.displaySize width height imageDimensions).2)%Q.
Proof.
  intros Hc Hr Hboth _ _ _ _.
  assert (¬ (inject_Z columns == 0)%Q) as Hc'.
  { intros H. apply Hc. by apply (proj1 (inject_Z_injective columns 0)). }
  assert (¬ (inject_Z rows == 0)%Q) as Hr'.
  { intros H. apply Hr. by apply (proj1 (inject_Z_injective rows 0)). }
  unfold Layout.computedFrameWidth, Layout.computedFrameHeight, Layout.displaySize.
  cbn [Layout.truthy].
  destruct (Layout.truthy width) as [w|], (Layout.truthy height) as [h|]; cbn [fst snd].
  - intros Hw Hh. rewrite Hw, Hh, !inject_Z_mult. repeat split; field; done.
  - discriminate (proj2 Hboth eq_refl).
  - discriminate (proj1 Hboth eq_refl).
  - intros Hw Hh. rewrite Hw, Hh, !inject_Z_mult. repeat split; field; done.
Qed.

(** The sheet of the test suite, 256 by 256 in 4 columns and 4 rows: frames
    of 64 by 64. *)
Lemma frames_tile_display_witness :
  (Layout.computedFrameWidth None None 4 256 == inject_Z 64)%Q
  ∧ (Layout.computedFrameHeight None None 4 256 == inject_Z 64)%Q
  ∧ (Layout.computedFrameWidth None None 4 256 * inject_Z 4
     == (Layout.displaySize None None {| Layout.width := 256; Layout.height := 256 |}).1)%Q
  ∧ (Layout.computedFrameHeight None None 4 256 * inject_Z 4
     == (Layout.displaySize None None {| Layout.width := 256; Layout.height := 256 |}).2)%Q.
Proof.
  apply (frames_tile_display None None 4 4
           {| Layout.width := 256; Layout.height := 256 |} 64 64);
    [lia | lia | done | split; reflexivity | split; reflexivity
    | split; reflexivity | split; reflexivity | reflexivity | reflexivity].
Defined.

(** Each run of the effect that loads the dimensions ends in one of three
    ways: the dimensions are set and no error is written; or one error is
    written and nothing is set; or, for a remote image only, [Image.getSize]
    has not answered yet.  A run that sets nothing leaves the dimensions of
    an earlier run in place.  So an image that is rendered after a run
    either was rendered before it or was loaded by it without an error; on
    a freshly mounted component, it was loaded without an error.  The asset
    is resolved for a [require]d source only, and [Image.getSize] is asked
    for a non-empty [uri] only; neither happens when [width] and [height]
    are both given. *)
Theorem loadImageDimensions_outcome source width height resolveAssetSource getSize previous :
  let r := Layout.loadImageDimensions source width height resolveAssetSource getSize in
  ((is_Some (Layout.setImageDimensions r) ∧ Layout.errors r = [])
   ∨ (Layout.setImageDimensions r = None ∧ ∃ e, Layout.errors r = [e])
   ∨ (Layout.setImageDimensions r = None ∧ Layout.errors r = []
      ∧ ∃ uri, source = Layout.URISource (Some uri) ∧ getSize uri = Layout.GetSizePending))
  ∧ (Layout.setImageDimensions r = None → Layout.imageDimensionsAfter previous r = previous)
  ∧ (Layout.rendered (Layout.imageDimensionsAfter previous r) = true →
     Layout.rendered previous = true
     ∨ (is_Some (Layout.setImageDimensions r) ∧ Layout.errors r = []))
  ∧ (Layout.rendered (Layout.imageDimensionsAfter Layout.noDimensions r) = true →
     Layout.errors r = [])
  ∧ (Layout.resolveCalled r = true → ∃ asset, source = Layout.RequireSource asset)
  ∧ (Layout.getSizeCalled r = true → ∃ uri, source = Layout.URISource (Some uri) ∧ uri ≠ "")
  ∧ (is_Some (Layout.truthy width) → is_Some (Layout.truthy height) →
     Layout.resolveCalled r = false ∧ Layout.getSizeCalled r = false).
Proof.
  unfold Layout.loadImageDimensions.
  assert (Layout.rendered Layout.noDimensions = false) as Hnot by done.
  destruct (Layout.truthy width) as [w|], (Layout.truthy height) as [h|];
    try (destruct source as [asset|[uri|]];
         [destruct (resolveAssetSource asset) as [resolved|];
          [destruct (Qeq_bool _ 0 || Qeq_bool _ 0)|]
         |destruct (String.eqb_spec uri ""); [|destruct (getSize uri) eqn:Hsize]
         |]);
    cbn [Layout.setImageDimensions Layout.errors Layout.resolveCalled Layout.getSizeCalled
         Layout.imageDimensionsAfter default];
    (split; [eauto 10|]);
    (split; [done|]);
    (split; [first [by left | by right; eauto]|]);
    (split; [first [done | intros; congruence]|]);
    (split; [first [done | intros _; eexists; reflexivity]|]);
    (split; [first [done | intros _; eexists; split; [reflexivity|done]]|]);
    first [done | by intros [? [=]] | by intros _ [? [=]]].
Qed.

(** A remote image whose size cannot be fetched: one error, nothing set; a
    fresh component renders nothing, one that showed a 256 by 256 sheet
    before goes on showing it. *)
Lemma loadImageDimensions_outcome_witness :
  let r := Layout.loadImageDimensions (Layout.URISource (Some "sheet.png")) (Some 600%Q) None
             (λ _, None) (λ _, Layout.GetSizeFailure) in
  Layout.errors r = [Layout.RemoteGetSizeFailed]
  ∧ Layout.rendered (Layout.imageDimensionsAfter Layout.noDimensions r) = false
  ∧ Layout.imageDimensionsAfter {| Layout.width := 256; Layout.height := 256 |} r
    = {| Layout.width := 256; Layout.height := 256 |}
  ∧ Layout.rendered
      (Layout.imageDimensionsAfter {| Layout.width := 256; Layout.height := 256 |} r) = true.
Proof.
  intros r. split; [reflexivity|]. split; [reflexivity|]. split; [|reflexivity].
  apply (proj1 (proj2
           (loadImageDimensions_outcome (Layout.URISource (Some "sheet.png")) (Some 600%Q) None
              (λ _, None) (λ _, Layout.GetSizeFailure)
              {| Layout.width := 256; Layout.height := 256 |}))).
  reflexivity.
Defined.

(** The sheet of the example application is built without a word. *)
Lemma interpolationRanges_silent_witness :
  (interpolationRanges goatProps).2 = []
  ∧ (2 ≤ length (framesOf goatProps {| row := 1; startFrame := 0; endFrame := 2 |}))%nat.
Proof.
  split; [reflexivity|].
  apply (proj1 (interpolationRanges_silent goatProps) eq_refl "left").
  reflexivity.
Defined.

(** Before anything has been played, [stop] and [reset] only call back. *)
Lemma stop_reset_idle_witness :
  stop (Some "stopped") initial = invoke (Some "stopped") initial
  ∧ reset (Some "rewound") initial = invoke (Some "rewound") initial.
Proof.
  split.
  - apply (proj1 (stop_reset_idle testProps initial (Some "stopped")
                    (reachable_initial testProps) eq_refl)).
  - apply (proj2 (stop_reset_idle testProps initial (Some "rewound")
                    (reachable_initial testProps) eq_refl)).
Defined.
